(** * multi-tqdm: a work queue drained by parallel workers under one progress bar

    Shallow embedding of [src/main.py] ([_worker] and [parallel]) as an
    interleaving transition system, and the properties of its runs.

    Modelling conventions.
    - A [multiprocessing.Queue] is the FIFO list of the items it holds:
      [put] appends at the back, [get] removes the front.  The blocking
      [shared.get()] is enabled only on a non-empty queue.  [put] hands the
      item to a feeder thread, so an item that is in the queue may not have
      reached the reader yet: [src.get(timeout=0.2)] raises [Empty] when the
      queue holds nothing, and also when its 0.2 s pass before an item is
      received although items are queued.  Whether that happens is read off
      the clock: [timed_out now] says that the wait which ends at the reading
      [now] has ended without an item.
    - A [multiprocessing.Lock] is a boolean; [acquire] is enabled only when it
      is free.
    - Every process is a program counter; one transition is one statement of
      the source.  A run is any interleaving of the transitions of the main
      process and of the workers.
    - [work], [tqdm.format_meter], [time()] and the terminal size are external:
      [work] and [format_meter] are parameters, each reading of the clock is a
      free value of the transition that takes it, and the terminal is given by
      what [_screen_shape_wrapper] answers.  [work] either returns or raises;
      [format_meter] and [stderr.write] return.
    - An exception that leaves [_worker] is reported by the bootstrap of the
      process ([multiprocessing.Process]): it writes the header and the
      traceback, [bootstrap_report index e], to the same [stderr], piece by
      piece and without the lock, and then the process is over. *)

From Stdlib Require Import ZArith List String Ascii Lia Permutation Wf_nat.
From stdpp Require Import base option list relations gmap strings pretty.

Local Open Scope Z_scope.

(** ** Exceptions and results *)

Inductive exn :=
| Empty                      (* queue.Empty *)
| TypeError
| ValueError
| OtherError (tag : nat).    (* any other exception class *)

Inductive result (A : Type) :=
| Ok (a : A)
| Raise (e : exn).
Arguments Ok {A} a.
Arguments Raise {A} e.

#[global] Instance result_ret : MRet result := fun A a => Ok a.

#[global] Instance result_bind : MBind result := fun A B k r =>
  match r with
  | Ok a => k a
  | Raise e => Raise e
  end.

(** What one invocation of the caller's [work] does. *)
Inductive outcome :=
| Returns
| Raises (e : exn).

(** ** Queues *)

Definition put {A} (q : list A) (x : A) : list A := q ++ [x].

Definition get {A} (q : list A) : option (A * list A) :=
  match q with
  | [] => None
  | x :: q' => Some (x, q')
  end.

(** ** The terminal *)

(** [_screen_shape_wrapper()] answers [None] on an unknown platform, else a
    function whose result is a pair (columns, rows), each possibly [None]. *)
Definition screen := option (option Z * option Z).

(** [_screen_shape_wrapper()(stderr)[0] // 2] *)
Definition screen_cols (sh : screen) : result Z :=
  match sh with
  | None => Raise TypeError               (* None is not callable *)
  | Some (None, _) => Raise TypeError     (* None // 2 *)
  | Some (Some w, _) => Ok (w / 2)
  end.

(** [try: col = ... except TypeError: col = 10] *)
Definition console_col (sh : screen) : result Z :=
  match screen_cols sh with
  | Raise TypeError => Ok 10
  | r => r
  end.

Definition CR : string := String (ascii_of_nat 13) EmptyString.
Definition NL : string := String (ascii_of_nat 10) EmptyString.

(** ** Processes *)

(** Program counter of a worker: the statement of [_worker] it executes next. *)
Inductive wstate (Item : Type) :=
| WNotStarted                (* Process object built, start() not called *)
| WGet                       (* src.get(timeout=0.2) *)
| WWork (x : Item)           (* work(index, x) *)
| WAcquire                   (* lock.acquire() *)
| WSharedGet                 (* new_id = shared.get() + 1 *)
| WWrite (new_id : Z)        (* stderr.write(format_meter(new_id, ...) + '\r') *)
| WPut (new_id : Z)          (* shared.put(new_id) *)
| WRelease                   (* lock.release() *)
| WReturned                  (* except Empty: return *)
| WReport (e : exn) (todo : list string)
                             (* e has left _worker; the bootstrap still has
                                to write todo on stderr *)
| WRaised (e : exn).         (* e has left _worker and was reported *)
Arguments WNotStarted {Item}.
Arguments WGet {Item}.
Arguments WWork {Item} x.
Arguments WAcquire {Item}.
Arguments WSharedGet {Item}.
Arguments WWrite {Item} new_id.
Arguments WPut {Item} new_id.
Arguments WRelease {Item}.
Arguments WReturned {Item}.
Arguments WReport {Item} e todo.
Arguments WRaised {Item} e.

(** Program counter of the main process, after the set-up of [parallel]. *)
Inductive mstate :=
| MStart (k : nat)           (* for process in processes: process.start() *)
| MJoin (k : nat)            (* for process in processes: process.join() *)
| MNewline                   (* stderr.write('\n') *)
| MDone.

Definition exited {Item} (w : wstate Item) : bool :=
  match w with
  | WReturned | WRaised _ => true
  | _ => false
  end.

(** Between [shared.get()] and [lock.release()]. *)
Definition in_gate {Item} (w : wstate Item) : bool :=
  match w with
  | WSharedGet | WWrite _ | WPut _ | WRelease => true
  | _ => false
  end.

Section MultiTqdm.

Variable Item : Type.
Variable Time : Type.
Variable tsub : Time -> Time -> Time.                 (* now - start *)
Variable work : nat -> Item -> outcome.
Variable format_meter : Z -> Z -> Time -> Z -> string.
Variable timed_out : Time -> bool.                    (* of src.get(timeout=0.2) *)
Variable bootstrap_report : nat -> exn -> list string.

(** Arguments of one call of [format_meter]. *)
Definition meter_args : Type := Z * Z * Time * Z.

Definition meter_count (a : meter_args) : Z :=
  match a with (n, _, _, _) => n end.

Definition render (a : meter_args) : string :=
  match a with (n, total, elapsed, ncols) =>
    String.append (format_meter n total elapsed ncols) CR
  end.

Record state := State {
  src : list Item;                 (* the queue of pending items *)
  shared : list Z;                 (* the queue that carries the counter *)
  lock : bool;                     (* true: held *)
  stderr : list string;            (* what was written, in order *)
  meter : list meter_args;         (* calls of format_meter, in order *)
  calls : list (nat * Item);       (* calls of work, in order *)
  processes : list (wstate Item);
  main : mstate;
  data_length : Z;                 (* length *)
  start : Time;
  col : Z
}.

Definition set_src (q : list Item) (s : state) : state :=
  State q (shared s) (lock s) (stderr s) (meter s) (calls s)
        (processes s) (main s) (data_length s) (start s) (col s).

Definition set_shared (q : list Z) (s : state) : state :=
  State (src s) q (lock s) (stderr s) (meter s) (calls s)
        (processes s) (main s) (data_length s) (start s) (col s).

Definition set_lock (b : bool) (s : state) : state :=
  State (src s) (shared s) b (stderr s) (meter s) (calls s)
        (processes s) (main s) (data_length s) (start s) (col s).

(** [stderr.write(format_meter(a) + '\r')] *)
Definition write_meter (a : meter_args) (s : state) : state :=
  State (src s) (shared s) (lock s) (stderr s ++ [render a]) (meter s ++ [a])
        (calls s) (processes s) (main s) (data_length s) (start s) (col s).

Definition write_stderr (t : string) (s : state) : state :=
  State (src s) (shared s) (lock s) (stderr s ++ [t]) (meter s) (calls s)
        (processes s) (main s) (data_length s) (start s) (col s).

Definition log_call (i : nat) (x : Item) (s : state) : state :=
  State (src s) (shared s) (lock s) (stderr s) (meter s) (calls s ++ [(i, x)])
        (processes s) (main s) (data_length s) (start s) (col s).

Definition set_proc (i : nat) (w : wstate Item) (s : state) : state :=
  State (src s) (shared s) (lock s) (stderr s) (meter s) (calls s)
        (<[i:=w]> (processes s)) (main s) (data_length s) (start s) (col s).

Definition set_main (m : mstate) (s : state) : state :=
  State (src s) (shared s) (lock s) (stderr s) (meter s) (calls s)
        (processes s) m (data_length s) (start s) (col s).

(** ** [_worker]: one statement of worker [index]; [now] is what the clock
    answers when the statement reads it or waits on it.  [None]: the worker
    is blocked, has not been started or has exited. *)
Definition worker_step (index : nat) (now : Time) (s : state) : option state :=
  match processes s !! index with
  | None => None
  | Some w =>
    match w with
    | WNotStarted | WReturned | WRaised _ => None
    | WGet =>
        match get (src s) with
        | None => Some (set_proc index WReturned s)            (* Empty *)
        | Some (x, q) =>
            if timed_out now
            then Some (set_proc index WReturned s)             (* Empty *)
            else Some (set_proc index (WWork x) (set_src q s))
        end
    | WWork x =>
        let s1 := log_call index x s in
        match work index x with
        | Returns => Some (set_proc index WAcquire s1)
        | Raises Empty => Some (set_proc index WReturned s1)   (* except Empty *)
        | Raises e =>
            Some (set_proc index (WReport e (bootstrap_report index e)) s1)
        end
    | WAcquire =>
        if lock s then None
        else Some (set_proc index WSharedGet (set_lock true s))
    | WSharedGet =>
        match get (shared s) with
        | None => None
        | Some (c, q) => Some (set_proc index (WWrite (c + 1)) (set_shared q s))
        end
    | WWrite new_id =>
        let a := (new_id, data_length s, tsub now (start s), col s) in
        Some (set_proc index (WPut new_id) (write_meter a s))
    | WPut new_id =>
        Some (set_proc index WRelease (set_shared (put (shared s) new_id) s))
    | WRelease =>
        if lock s then Some (set_proc index WGet (set_lock false s))
        else                                                   (* release unlocked *)
          Some (set_proc index
                  (WReport ValueError (bootstrap_report index ValueError)) s)
    | WReport e (t :: todo) =>
        Some (set_proc index (WReport e todo) (write_stderr t s))
    | WReport e [] => Some (set_proc index (WRaised e) s)
    end
  end.

(** ** [parallel] *)

(** Lines 48-68: everything before the first [process.start()].  [t0] and
    [t1] are the two readings of the clock. *)
Definition parallel_setup (data : list Item) (process_cnt : Z) (sh : screen)
    (t0 t1 : Time) : result state :=
  let src := fold_left put data [] in
  let length := Z.of_nat (List.length data) in
  let shared := put [] 0 in
  let start := t0 in
  c ← console_col sh;
  let s := State src shared false [] [] []
                 (replicate (Z.to_nat process_cnt) WNotStarted)
                 (MStart 0) length start c in
  mret (write_meter (0, length, tsub t1 start, c) s).

(** Lines 70-75: one statement of the main process. *)
Definition main_step (s : state) : option state :=
  match main s with
  | MStart k =>
      match processes s !! k with
      | Some _ => Some (set_proc k WGet (set_main (MStart (S k)) s))
      | None => Some (set_main (MJoin 0) s)
      end
  | MJoin k =>
      match processes s !! k with
      | Some w => if exited w then Some (set_main (MJoin (S k)) s) else None
      | None => Some (set_main MNewline s)
      end
  | MNewline => Some (set_main MDone (write_stderr NL s))
  | MDone => None
  end.

(** ** Runs *)

Inductive actor :=
| Main
| Worker (index : nat) (now : Time).

Definition act (a : actor) (s : state) : option state :=
  match a with
  | Main => main_step s
  | Worker i now => worker_step i now s
  end.

Inductive step (s s' : state) : Prop :=
| step_act (a : actor) : act a s = Some s' -> step s s'.

(** A schedule, executed from left to right. *)
Fixpoint exec (sched : list actor) (s : state) : option state :=
  match sched with
  | [] => Some s
  | a :: sched' =>
      match act a s with
      | Some s' => exec sched' s'
      | None => None
      end
  end.

(** [parallel] under the schedule [sched]: the set-up, then the schedule.
    [None]: the set-up raised, or the schedule asks a blocked process to move. *)
Definition parallel_run (data : list Item) (process_cnt : Z) (sh : screen)
    (t0 t1 : Time) (sched : list actor) : option state :=
  match parallel_setup data process_cnt sh t0 t1 with
  | Ok s0 => exec sched s0
  | Raise _ => None
  end.

Definition reachable (s0 s : state) : Prop := rtc step s0 s.

Definition finished (s : state) : Prop := main s = MDone.

(** Every run from [s0] is finite, never blocks before [parallel] returns,
    and satisfies [P] when [parallel] returns. *)
Definition always_ends (P : state -> Prop) (s0 : state) : Prop :=
  Acc (fun s' s => step s s') s0
  /\ (forall s, reachable s0 s -> finished s \/ exists s', step s s')
  /\ (forall s, reachable s0 s -> finished s -> P s).


(** ** Quantities over the processes *)

(** 1 for the worker inside the gate. *)
Definition gate_n (w : wstate Item) : nat :=
  match w with
  | WSharedGet | WWrite _ | WPut _ | WRelease => 1%nat
  | _ => 0%nat
  end.

(** 1 for a worker whose item is done and whose render is still to come. *)
Definition pending (w : wstate Item) : nat :=
  match w with
  | WAcquire | WSharedGet | WWrite _ => 1%nat
  | _ => 0%nat
  end.

Definition unstarted (w : wstate Item) : bool :=
  match w with
  | WNotStarted => true
  | _ => false
  end.

(** The item a worker took from [src] and has not yet passed to [work]. *)
Definition holding (w : wstate Item) : list Item :=
  match w with
  | WWork x => [x]
  | _ => []
  end.

Definition in_flight (l : list (wstate Item)) : list Item := l ≫= holding.

(** Calls of [work] that returned. *)
Definition ok_calls (cs : list (nat * Item)) : nat :=
  sum_list_with (fun c => match work c.1 c.2 with Returns => 1%nat | Raises _ => 0%nat end) cs.

(** The counts [0; 1; ...; k-1]. *)
Definition counts (k : nat) : list Z := Z.of_nat <$> seq 0 k.

(** Number of calls of [format_meter] so far. *)
Definition rendered (s : state) : Z := Z.of_nat (List.length (meter s)).

(** What the counter queue [sh] holds while a worker is at [w], after [r]
    calls of [format_meter]. *)
Definition gate_ok (w : wstate Item) (sh : list Z) (r : Z) : Prop :=
  match w with
  | WSharedGet | WRelease => sh = [r - 1]
  | WWrite v => sh = [] /\ v = r
  | WPut v => sh = [] /\ v = r - 1
  | _ => True
  end.

(** Where the workers [l] can be while the main process is at [m]. *)
Definition main_ok (m : mstate) (l : list (wstate Item)) : Prop :=
  match m with
  | MStart k =>
      forall j w, l !! j = Some w ->
        ((j < k)%nat -> unstarted w = false) /\ ((k <= j)%nat -> w = WNotStarted)
  | MJoin k =>
      forall j w, l !! j = Some w ->
        unstarted w = false /\ ((j < k)%nat -> exited w = true)
  | MNewline | MDone =>
      forall j w, l !! j = Some w -> exited w = true
  end.

(** 1 for a worker that an exception has left. *)
Definition died (w : wstate Item) : nat :=
  match w with
  | WReport _ _ | WRaised _ => 1%nat
  | _ => 0%nat
  end.

(** The invariant of every run of [parallel] on [data]. *)
Record inv (data : list Item) (s : state) : Prop := Inv {
  inv_gate : sum_list_with gate_n (processes s) = if lock s then 1%nat else 0%nat;
  inv_free : lock s = false -> shared s = [rendered s - 1];
  inv_held :
    forall i w, processes s !! i = Some w -> gate_ok w (shared s) (rendered s);
  inv_counts : meter_count <$> meter s = counts (List.length (meter s));
  inv_pending :
    (List.length (meter s) + sum_list_with pending (processes s)
     = 1 + ok_calls (calls s))%nat;
  inv_items : data ≡ₚ (snd <$> calls s) ++ in_flight (processes s) ++ src s;
  inv_main : main_ok (main s) (processes s);
  inv_stderr :
    exists body,
      stderr s = body ++ (if main s is MDone then [NL] else [])
      /\ (render <$> meter s) `sublist_of` body
      /\ (sum_list_with died (processes s) = 0%nat -> body = render <$> meter s);
  inv_length : data_length s = Z.of_nat (List.length data);
  inv_first : (0 < List.length (meter s))%nat
}.

(** ** Termination measure *)

(** The longest report the bootstrap of one of [n] workers can have to
    write for [e]. *)
Definition longest_report (n : nat) (e : exn) : nat :=
  max_list ((fun i => List.length (bootstrap_report i e)) <$> seq 0 n).

(** The same for what [work] raises on [x]. *)
Definition longest_work_report (n : nat) (x : Item) : nat :=
  max_list ((fun i => match work i x with
                      | Returns => 0%nat
                      | Raises e => List.length (bootstrap_report i e)
                      end) <$> seq 0 n).

Definition weight (n : nat) (w : wstate Item) : nat :=
  match w with
  | WNotStarted => 1
  | WGet => 1
  | WWork x => 7 + longest_report n ValueError + longest_work_report n x
  | WAcquire => 6 + longest_report n ValueError
  | WSharedGet => 5 + longest_report n ValueError
  | WWrite _ => 4 + longest_report n ValueError
  | WPut _ => 3 + longest_report n ValueError
  | WRelease => 2 + longest_report n ValueError
  | WReport _ todo => 1 + List.length todo
  | WReturned | WRaised _ => 0
  end%nat.

Definition item_weight (n : nat) (x : Item) : nat :=
  (8 + longest_report n ValueError + longest_work_report n x)%nat.

Definition main_weight (n : nat) (m : mstate) : nat :=
  match m with
  | MStart k => 3 + n + 2 * (n - k)
  | MJoin k => 2 + (n - k)
  | MNewline => 1
  | MDone => 0
  end%nat.

Definition measure (s : state) : nat :=
  let n := List.length (processes s) in
  (main_weight n (main s)
   + sum_list_with (weight n) (processes s)
   + sum_list_with (item_weight n) (src s))%nat.

(** ** The sequential loop, for comparison with [process_cnt = 1]

    [for item in data: work(0, item); done += 1; render(done)], as the pair
    of the calls of [work] and of the counts rendered; the loop stops at the
    first call that raises. *)
Fixpoint sequential_loop (data : list Item) (done : Z) : list (nat * Item) * list Z :=
  match data with
  | [] => ([], [])
  | x :: rest =>
      match work 0%nat x with
      | Returns =>
          let r := sequential_loop rest (done + 1) in
          ((0%nat, x) :: r.1, (done + 1) :: r.2)
      | Raises _ => ([(0%nat, x)], [])
      end
  end.

(** The calls of [work] made by the sequential loop. *)
Definition seq_calls (data : list Item) : list (nat * Item) :=
  (sequential_loop data 0).1.

(** The calls the sequential loop still has to make when the only worker is
    at [w] and the queue holds [q]. *)
Definition rest_calls (w : wstate Item) (q : list Item) : list (nat * Item) :=
  match w with
  | WWork x => seq_calls (x :: q)
  | WReturned | WReport _ _ | WRaised _ => []
  | _ => seq_calls q
  end.

(** No [src.get] gives up while items are queued. *)
Definition no_early_timeout : Prop := forall now, timed_out now = false.

(** 1 for a worker whose loop is over. *)
Definition ended (w : wstate Item) : nat :=
  match w with
  | WReturned | WReport _ _ | WRaised _ => 1%nat
  | _ => 0%nat
  end.

Definition seq_inv (data : list Item) (s : state) : Prop :=
  exists w rest,
    processes s = [w] /\ seq_calls data = calls s ++ rest
    /\ (ended w = 0%nat \/ no_early_timeout -> rest = rest_calls w (src s)).

(** ** Lists updated at one index *)

Lemma sum_insert (f : wstate Item -> nat) (l : list (wstate Item)) i x y :
  l !! i = Some x ->
  (sum_list_with f (<[i:=y]> l) + f x = sum_list_with f l + f y)%nat.
Proof.
  revert i. induction l as [|a l IH]; intros [|i] Hi; simpl in *; try discriminate.
  - injection Hi as ->. lia.
  - specialize (IH i Hi). lia.
Qed.

Lemma in_flight_insert (l : list (wstate Item)) i x y :
  l !! i = Some x ->
  holding x ++ in_flight (<[i:=y]> l) ≡ₚ holding y ++ in_flight l.
Proof.
  unfold in_flight. revert i.
  induction l as [|a l IH]; intros [|i] Hi; simpl in *; try discriminate.
  - injection Hi as ->. apply Permutation_app_swap_app.
  - specialize (IH i Hi).
    etrans; [apply Permutation_app_swap_app|].
    etrans; [|apply Permutation_app_swap_app].
    apply Permutation_app_head, IH.
Qed.

Lemma sum_zero_all (f : wstate Item -> nat) (l : list (wstate Item)) i x :
  sum_list_with f l = 0%nat -> l !! i = Some x -> f x = 0%nat.
Proof.
  intros Hs Hi. apply list_elem_of_lookup_2 in Hi.
  pose proof (sum_list_with_in x f l Hi). lia.
Qed.

Lemma all_zero_sum (f : wstate Item -> nat) (l : list (wstate Item)) :
  (forall i x, l !! i = Some x -> f x = 0%nat) -> sum_list_with f l = 0%nat.
Proof.
  induction l as [|a l IH]; intros H; simpl; [done|].
  rewrite (H 0%nat a eq_refl), IH; [done|]. intros i x Hi. apply (H (S i) x Hi).
Qed.

Lemma sum_two (f : wstate Item -> nat) (l : list (wstate Item)) i j x y :
  i <> j -> l !! i = Some x -> l !! j = Some y ->
  (f x + f y <= sum_list_with f l)%nat.
Proof.
  revert i j. induction l as [|a l IH]; intros [|i] [|j] Hne Hi Hj;
    simpl in *; try done.
  - injection Hi as ->. apply list_elem_of_lookup_2 in Hj.
    pose proof (sum_list_with_in y f l Hj). lia.
  - injection Hj as ->. apply list_elem_of_lookup_2 in Hi.
    pose proof (sum_list_with_in x f l Hi). lia.
  - assert (i <> j) as Hne' by congruence.
    specialize (IH i j Hne' Hi Hj). lia.
Qed.

Lemma sum_pos_exists (f : wstate Item -> nat) (l : list (wstate Item)) :
  (0 < sum_list_with f l)%nat -> exists i x, l !! i = Some x /\ (0 < f x)%nat.
Proof.
  induction l as [|a l IH]; simpl; [lia|]. intros H.
  destruct (f a) eqn:Ha.
  - destruct IH as (i & x & Hi & Hx); [lia|]. by exists (S i), x.
  - exists 0%nat, a. split; [done|lia].
Qed.

Lemma in_flight_nil (l : list (wstate Item)) :
  (forall i x, l !! i = Some x -> holding x = []) -> in_flight l = [].
Proof.
  unfold in_flight. induction l as [|a l IH]; intros H; [done|].
  rewrite bind_cons, (H 0%nat a eq_refl), IH; [done|].
  intros i x Hi. apply (H (S i) x Hi).
Qed.

Lemma fold_put (data acc : list Item) : fold_left put data acc = acc ++ data.
Proof.
  revert acc. induction data as [|x data IH]; intros acc; simpl.
  - by rewrite app_nil_r.
  - rewrite IH. unfold put. by rewrite <- app_assoc.
Qed.

Lemma counts_S (k : nat) : counts (S k) = counts k ++ [Z.of_nat k].
Proof. unfold counts. by rewrite seq_S, fmap_app. Qed.

Lemma ok_calls_snoc cs i x :
  ok_calls (cs ++ [(i, x)])
  = (ok_calls cs + match work i x with Returns => 1 | Raises _ => 0 end)%nat.
Proof. unfold ok_calls. rewrite sum_list_with_app. simpl. lia. Qed.

(** ** The invariant holds initially and is kept by every transition *)

Lemma gate_ok_out (w : wstate Item) sh r : gate_n w = 0%nat -> gate_ok w sh r.
Proof. by destruct w. Qed.

Lemma main_ok_worker m (l : list (wstate Item)) i w y :
  main_ok m l -> l !! i = Some w -> exited w = false -> unstarted w = false ->
  unstarted y = false ->
  main_ok m (<[i:=y]> l).
Proof.
  intros Hm Hw He Hu Hy.
  destruct m as [k|k| |]; simpl in *; intros j w' Hj;
    apply list_lookup_insert_Some in Hj as [(-> & <- & _)|[Hne Hj]]; eauto.
  - destruct (Hm _ _ Hw) as [_ H]. split; [done|]. intros Hle.
    rewrite (H Hle) in Hu. done.
  - split; [done|]. intros Hlt. destruct (Hm _ _ Hw) as [_ H]. rewrite H in He; done.
  - rewrite (Hm _ _ Hw) in He. done.
  - rewrite (Hm _ _ Hw) in He. done.
Qed.

Lemma setup_inv data process_cnt sh t0 t1 s0 :
  parallel_setup data process_cnt sh t0 t1 = Ok s0 -> inv data s0.
Proof.
  unfold parallel_setup. destruct (console_col sh) as [c|e]; simpl; [|done].
  intros [= <-].
  assert (forall (f : wstate Item -> nat), f WNotStarted = 0%nat ->
    sum_list_with f (replicate (Z.to_nat process_cnt) (@WNotStarted Item)) = 0%nat) as Hz.
  { intros f Hf. apply all_zero_sum. intros i x [-> _]%lookup_replicate. done. }
  split; simpl.
  - by apply Hz.
  - done.
  - intros i w [-> _]%lookup_replicate. done.
  - done.
  - rewrite Hz; done.
  - rewrite fold_put, in_flight_nil; [done|].
    intros i x [-> _]%lookup_replicate. done.
  - intros j w [-> _]%lookup_replicate. split; [lia|done].
  - eexists. split; [symmetry; apply app_nil_r|]. by split.
  - done.
  - lia.
Qed.

(** Instantiate the update lemmas of the stepping worker with its new state. *)
Ltac upd_proc y :=
  match goal with
  | Sg : forall _, (sum_list_with gate_n _ + _ = _)%nat,
    Sp : forall _, (sum_list_with pending _ + _ = _)%nat,
    Sd : forall _, (sum_list_with died _ + _ = _)%nat,
    Sf : forall _, _ ≡ₚ _,
    Sm : forall _, _ -> _ -> _ -> main_ok _ _ |- _ =>
      specialize (Sg y); specialize (Sp y); specialize (Sd y);
      specialize (Sf y); specialize (Sm y);
      simpl in Sg, Sp, Sd, Sf, Sm
  end.

(** The stream is as it was. *)
Ltac stream_same :=
  match goal with
  | He : exists body, _ |- exists body, _ =>
      let body := fresh "body" in
      let He1 := fresh "He1" in
      let He2 := fresh "He2" in
      let He3 := fresh "He3" in
      let Hz := fresh "Hz" in
      destruct He as (body & He1 & He2 & He3); exists body;
      split; [exact He1|split; [exact He2|intros Hz; apply He3; lia]]
  end.

(** A worker that can take a step is inside the gate only if the lock is held. *)
Lemma gate_locked data s i w :
  inv data s -> processes s !! i = Some w -> in_gate w = true -> lock s = true.
Proof.
  intros Hinv Hw Hg. pose proof (inv_gate _ _ Hinv) as Hs.
  apply list_elem_of_lookup_2 in Hw.
  pose proof (sum_list_with_in w gate_n _ Hw) as Hle.
  destruct (lock s); [done|]. destruct w; simpl in *; done || lia.
Qed.

(** Two workers are never inside the gate together. *)
Lemma gate_exclusive data s i j wi wj :
  inv data s -> processes s !! i = Some wi -> processes s !! j = Some wj ->
  in_gate wi = true -> in_gate wj = true -> i = j.
Proof.
  intros Hinv Hi Hj Gi Gj. destruct (decide (i = j)) as [|Hne]; [done|].
  pose proof (sum_two gate_n _ i j wi wj Hne Hi Hj) as Hle.
  pose proof (inv_gate _ _ Hinv) as Hs.
  destruct (lock s), wi, wj; simpl in *; done || lia.
Qed.

Lemma held_others data s i w j w' sh r :
  inv data s -> processes s !! i = Some w -> in_gate w = true ->
  i <> j -> processes s !! j = Some w' -> gate_ok w' sh r.
Proof.
  intros Hinv Hi Gi Hne Hj. apply gate_ok_out.
  destruct (in_gate w') eqn:Gj; [|by destruct w'].
  destruct Hne. eapply gate_exclusive; eauto.
Qed.

Lemma worker_step_inv data i now s s' :
  inv data s -> worker_step i now s = Some s' -> inv data s'.
Proof.
  intros Hinv Hstep. unfold worker_step in Hstep.
  destruct (processes s !! i) as [w|] eqn:Hw; [|done].
  pose proof (gate_locked data s i w Hinv Hw) as Hlk.
  pose proof (fun G j w' sh r => held_others data s i w j w' sh r Hinv Hw G) as Hoth.
  pose proof (fun y => sum_insert gate_n _ i w y Hw) as Sg.
  pose proof (fun y => sum_insert pending _ i w y Hw) as Sp.
  pose proof (fun y => sum_insert died _ i w y Hw) as Sd.
  pose proof (fun y => in_flight_insert _ i w y Hw) as Sf.
  pose proof (fun y => main_ok_worker (main s) _ i w y (inv_main _ _ Hinv) Hw) as Sm.
  pose proof (inv_held _ _ Hinv i w Hw) as Hok.
  pose proof (sum_list_with_in w died _ (list_elem_of_lookup_2 _ _ _ Hw)) as Hdw.
  assert (exited w = false -> main s <> MNewline /\ main s <> MDone) as Hrun.
  { intros Hex. pose proof (inv_main _ _ Hinv) as Hm.
    split; intros Hmn; rewrite Hmn in Hm; simpl in Hm;
      by rewrite (Hm _ _ Hw) in Hex. }
  destruct Hinv as [Hg Hf Hh Hc Hp Hi Hm He Hl Hfst].
  destruct s as [sr sh lk er mt cl pr mn dl st cc]; simpl in *.
  unfold rendered in *; simpl in *.
  destruct w as [| |x| | |v|v| | |e todo|e]; simpl in *; try done.
  - (* src.get(timeout=0.2) *)
    assert (inv data (State sr sh lk er mt cl (<[i:=WReturned]> pr) mn dl st cc))
      as Hempty.
    { upd_proc (@WReturned Item).
      split; simpl; unfold rendered; simpl in *; auto; try stream_same.
      - destruct lk; lia.
      - intros j w' [(-> & <- & _)|[Hne Hj]]%list_lookup_insert_Some; [done|eauto].
      - lia.
      - by rewrite Sf. }
    destruct sr as [|x q]; simpl in Hstep;
      [|destruct (timed_out now)]; injection Hstep as <-; try exact Hempty.
    upd_proc (WWork x).
    split; simpl; unfold rendered; simpl in *; auto; try stream_same.
    + destruct lk; lia.
    + intros j w' [(-> & <- & _)|[Hne Hj]]%list_lookup_insert_Some; [done|eauto].
    + lia.
    + rewrite Hi, Sf. apply Permutation_app_head. simpl.
      symmetry. apply Permutation_middle.
  - (* work(index, x) *)
    assert (forall y : wstate Item, holding y = [] -> gate_n y = 0%nat ->
      unstarted y = false ->
      (pending y = match work i x with Returns => 1 | Raises _ => 0 end)%nat ->
      inv data (State sr sh lk er mt (cl ++ [(i, x)]) (<[i:=y]> pr) mn dl st cc))
      as Hcase.
    { intros y Hy Gy Uy Py. specialize (Sg y); specialize (Sp y);
        specialize (Sd y); specialize (Sf y); specialize (Sm y).
      rewrite Hy in Sf. simpl in Sf.
      split; simpl; unfold rendered; simpl; auto; try stream_same.
      - destruct lk; lia.
      - intros j w' [(-> & <- & _)|[Hne Hj]]%list_lookup_insert_Some; [|eauto].
        by apply gate_ok_out.
      - rewrite ok_calls_snoc. lia.
      - rewrite fmap_app, <- app_assoc. simpl. by rewrite Hi, <- Sf. }
    destruct (work i x) as [|[]] eqn:Hwk; injection Hstep as <-;
      unfold log_call, set_proc; simpl; by apply Hcase.
  - (* lock.acquire() *)
    destruct lk; [done|]. injection Hstep as <-.
    upd_proc (@WSharedGet Item).
    split; simpl; unfold rendered; simpl in *; auto; try stream_same.
    + lia.
    + intros j w' [(-> & <- & _)|[Hne Hj]]%list_lookup_insert_Some; [|eauto].
      simpl. auto.
    + lia.
    + by rewrite Sf.
  - (* new_id = shared.get() + 1 *)
    rewrite (Hlk eq_refl) in *. subst sh. simpl in Hstep. injection Hstep as <-.
    upd_proc (@WWrite Item (Z.of_nat (List.length mt) - 1 + 1)).
    split; simpl; unfold rendered; simpl in *; auto; try stream_same.
    + lia.
    + done.
    + intros j w' [(-> & <- & _)|[Hne Hj]]%list_lookup_insert_Some; [|eauto].
      simpl. split; [done|lia].
    + lia.
    + by rewrite Sf.
  - (* stderr.write(format_meter(new_id, length, time() - start, col) + '\r') *)
    rewrite (Hlk eq_refl) in *. destruct Hok as [-> ->]. injection Hstep as <-.
    upd_proc (@WPut Item (Z.of_nat (List.length mt))).
    destruct (Hrun eq_refl) as [_ Hnd].
    split; simpl; unfold rendered; simpl in *; auto;
      rewrite ?length_app, ?Nat.add_1_r; simpl.
    + lia.
    + done.
    + intros j w' [(-> & <- & _)|[Hne Hj]]%list_lookup_insert_Some; [|eauto].
      simpl. split; [done|lia].
    + rewrite fmap_app, Hc, counts_S. done.
    + lia.
    + by rewrite Sf.
    + destruct He as (body & He1 & He2 & He3).
      assert (er = body) as -> by (destruct mn; try done; by rewrite app_nil_r in He1).
      eexists. split; [|split].
      * destruct mn; try done; by rewrite app_nil_r.
      * rewrite fmap_app. by apply sublist_app.
      * intros Hz. rewrite fmap_app, He3; [done|lia].
    + lia.
  - (* shared.put(new_id) *)
    rewrite (Hlk eq_refl) in *. destruct Hok as [-> ->]. injection Hstep as <-.
    upd_proc (@WRelease Item).
    split; simpl; unfold rendered; simpl in *; auto; try stream_same.
    + lia.
    + intros j w' [(-> & <- & _)|[Hne Hj]]%list_lookup_insert_Some; [|eauto].
      done.
    + lia.
    + by rewrite Sf.
  - (* lock.release() *)
    rewrite (Hlk eq_refl) in *. injection Hstep as <-.
    upd_proc (@WGet Item).
    split; simpl; unfold rendered; simpl in *; auto; try stream_same.
    + lia.
    + intros j w' [(-> & <- & _)|[Hne Hj]]%list_lookup_insert_Some; [done|eauto].
    + lia.
    + by rewrite Sf.
  - (* the bootstrap reports the exception *)
    destruct (Hrun eq_refl) as [_ Hnd].
    destruct todo as [|t todo]; injection Hstep as <-.
    + upd_proc (@WRaised Item e).
      split; simpl; unfold rendered; simpl in *; auto; try stream_same.
      * destruct lk; lia.
      * intros j w' [(-> & <- & _)|[Hne Hj]]%list_lookup_insert_Some; [done|eauto].
      * lia.
      * by rewrite Sf.
    + upd_proc (@WReport Item e todo).
      split; simpl; unfold rendered; simpl in *; auto.
      * destruct lk; lia.
      * intros j w' [(-> & <- & _)|[Hne Hj]]%list_lookup_insert_Some; [done|eauto].
      * lia.
      * by rewrite Sf.
      * destruct He as (body & He1 & He2 & He3).
        assert (er = body) as ->
          by (destruct mn; try done; by rewrite app_nil_r in He1).
        exists (body ++ [t]). split; [|split].
        -- destruct mn; try done; by rewrite app_nil_r.
        -- by apply sublist_inserts_r.
        -- intros Hz. lia.
Qed.

Lemma main_step_inv data s s' :
  inv data s -> main_step s = Some s' -> inv data s'.
Proof.
  intros [Hg Hf Hh Hc Hp Hi Hm He Hl Hfst] Hstep. unfold main_step in Hstep.
  destruct s as [sr sh lk er mt cl pr mn dl st cc]; simpl in *.
  unfold rendered in *; simpl in *.
  destruct mn as [k|k| |]; simpl in *; [| | |done].
  - (* process.start() *)
    destruct (pr !! k) as [w|] eqn:Hw; injection Hstep as <-.
    + destruct (Hm _ _ Hw) as [_ Hns]. specialize (Hns (Nat.le_refl k)). subst w.
      pose proof (sum_insert gate_n _ k _ WGet Hw) as Sg.
      pose proof (sum_insert pending _ k _ WGet Hw) as Sp.
      pose proof (sum_insert died _ k _ WGet Hw) as Sd.
      pose proof (in_flight_insert _ k _ WGet Hw) as Sf. simpl in Sg, Sp, Sd, Sf.
      split; simpl; unfold rendered; simpl; auto; try stream_same.
      * lia.
      * intros j w' [(-> & <- & _)|[Hne Hj]]%list_lookup_insert_Some; [done|eauto].
      * lia.
      * by rewrite Sf.
      * intros j w' [(-> & <- & _)|[Hne Hj]]%list_lookup_insert_Some.
        { split; [done|lia]. }
        destruct (Hm _ _ Hj) as [H1 H2]. split; intros ?; [apply H1|apply H2]; lia.
    + split; simpl; unfold rendered; simpl; auto.
      intros j w Hj. apply lookup_ge_None in Hw. pose proof (lookup_lt_Some _ _ _ Hj).
      destruct (Hm _ _ Hj) as [H1 _]. split; [apply H1|]; lia.
  - (* process.join() *)
    destruct (pr !! k) as [w|] eqn:Hw.
    + destruct (exited w) eqn:Hex; [|done]. injection Hstep as <-.
      split; simpl; unfold rendered; simpl; auto.
      intros j w' Hj. destruct (Hm _ _ Hj) as [H1 H2]. split; [done|].
      intros Hlt. destruct (decide (j = k)) as [->|]; [congruence|]. apply H2. lia.
    + injection Hstep as <-.
      split; simpl; unfold rendered; simpl; auto.
      intros j w Hj. apply lookup_ge_None in Hw. pose proof (lookup_lt_Some _ _ _ Hj).
      destruct (Hm _ _ Hj) as [_ H2]. apply H2. lia.
  - (* stderr.write('\n') *)
    injection Hstep as <-.
    split; simpl; unfold rendered; simpl; auto.
    destruct He as (body & -> & He2 & He3). exists body.
    by rewrite app_nil_r.
Qed.

Lemma step_inv data s s' : inv data s -> step s s' -> inv data s'.
Proof.
  intros Hinv [[|i now] Hact]; simpl in Hact.
  - eapply main_step_inv; eauto.
  - eapply worker_step_inv; eauto.
Qed.

Lemma reachable_inv data s0 s : inv data s0 -> reachable s0 s -> inv data s.
Proof.
  intros H0 Hr. induction Hr as [|s1 s2 s3 Hs _ IH]; [done|].
  apply IH. eapply step_inv; eauto.
Qed.

(** ** No run blocks, every run is finite *)

Lemma can_step a s : is_Some (act a s) -> exists s', step s s'.
Proof. intros [s' Hs]. exists s'. by apply (step_act _ _ a). Qed.

Lemma inv_progress data s : inv data s -> finished s \/ exists s', step s s'.
Proof.
  intros Hinv. unfold finished.
  destruct (main s) as [k|k| |] eqn:Hmn; [right..|by left].
  - apply (can_step Main). simpl. unfold main_step. rewrite Hmn.
    destruct (processes s !! k); eauto.
  - destruct (processes s !! k) as [w|] eqn:Hw;
      [destruct (exited w) eqn:Hex|].
    + apply (can_step Main). simpl. unfold main_step. rewrite Hmn, Hw, Hex. eauto.
    + pose proof (inv_gate _ _ Hinv) as Hg.
      pose proof (inv_main _ _ Hinv) as Hm. rewrite Hmn in Hm. simpl in Hm.
      destruct (lock s) eqn:Hlk.
      * destruct (sum_pos_exists gate_n (processes s)) as (j & w' & Hj & Hpos); [lia|].
        pose proof (inv_held _ _ Hinv j w' Hj) as Hok.
        apply (can_step (Worker j (start s))). simpl. unfold worker_step.
        rewrite Hj. destruct w'; simpl in *; try lia; eauto.
        -- rewrite Hok. simpl. eauto.
        -- rewrite Hlk. eauto.
      * pose proof (sum_zero_all gate_n _ k w Hg Hw) as Hout.
        destruct (Hm _ _ Hw) as [Hst _].
        apply (can_step (Worker k (start s))). simpl. unfold worker_step.
        rewrite Hw. destruct w; simpl in *; try done.
        -- destruct (src s); simpl; [|destruct (timed_out (start s))]; eauto.
        -- destruct (work k x) as [|[]]; eauto.
        -- rewrite Hlk. eauto.
        -- destruct todo; eauto.
    + apply (can_step Main). simpl. unfold main_step. rewrite Hmn, Hw. eauto.
  - apply (can_step Main). simpl. unfold main_step. rewrite Hmn. eauto.
Qed.

Lemma longest_report_le n i e :
  (i < n)%nat -> (List.length (bootstrap_report i e) <= longest_report n e)%nat.
Proof.
  intros Hi. apply max_list_elem_of_le.
  apply (list_elem_of_fmap_2 (fun i => List.length (bootstrap_report i e))).
  apply elem_of_seq. lia.
Qed.

Lemma longest_work_report_le n i x e :
  (i < n)%nat -> work i x = Raises e ->
  (List.length (bootstrap_report i e) <= longest_work_report n x)%nat.
Proof.
  intros Hi Hx. apply max_list_elem_of_le.
  apply list_elem_of_fmap. exists i. rewrite Hx. split; [done|].
  apply elem_of_seq. lia.
Qed.

Lemma step_measure s s' : step s s' -> (measure s' < measure s)%nat.
Proof.
  intros [[|i now] Hact]; simpl in Hact.
  - unfold main_step in Hact. unfold measure.
    destruct s as [sr sh lk er mt cl pr mn dl st cc]; simpl in *.
    destruct mn as [k|k| |]; [| | |done].
    + destruct (pr !! k) as [w|] eqn:Hw; injection Hact as <-; simpl.
      * rewrite length_insert.
        pose proof (sum_insert (weight (List.length pr)) _ k w WGet Hw) as Sw.
        simpl in Sw. pose proof (lookup_lt_Some _ _ _ Hw). lia.
      * apply lookup_ge_None in Hw. lia.
    + destruct (pr !! k) as [w|] eqn:Hw.
      * destruct (exited w); [|done]. injection Hact as <-; simpl.
        pose proof (lookup_lt_Some _ _ _ Hw). lia.
      * injection Hact as <-; simpl. lia.
    + injection Hact as <-; simpl. lia.
  - unfold worker_step in Hact. unfold measure.
    destruct (processes s !! i) as [w|] eqn:Hw; [|done].
    pose proof (lookup_lt_Some _ _ _ Hw) as Hlt.
    pose proof (fun y => sum_insert (weight (List.length (processes s))) _ i w y Hw)
      as Sw.
    pose proof (longest_report_le _ _ ValueError Hlt) as Hrel.
    destruct s as [sr sh lk er mt cl pr mn dl st cc]; simpl in *.
    destruct w as [| |x| | |v|v| | |e todo|e]; simpl in *; try done.
    + destruct sr as [|x q]; [|destruct (timed_out now)];
        injection Hact as <-; simpl; rewrite length_insert.
      * specialize (Sw WReturned). simpl in *. lia.
      * specialize (Sw WReturned). simpl in *. lia.
      * specialize (Sw (WWork x)). unfold item_weight. simpl in *. lia.
    + pose proof (longest_work_report_le (List.length pr) i x) as Hwr.
      destruct (work i x) as [|e] eqn:Hx; [|destruct e];
        (try specialize (Hwr _ Hlt eq_refl)); injection Hact as <-; simpl;
        rewrite length_insert;
        match goal with |- context [<[i:=?y]> pr] => specialize (Sw y) end;
        simpl in *; lia.
    + destruct lk; [done|]. injection Hact as <-; simpl. rewrite length_insert.
      specialize (Sw WSharedGet). simpl in *. lia.
    + destruct sh as [|c q]; [done|]. injection Hact as <-; simpl.
      rewrite length_insert. specialize (Sw (WWrite (c + 1))). simpl in *. lia.
    + injection Hact as <-; simpl. rewrite length_insert.
      specialize (Sw (WPut v)). simpl in *. lia.
    + injection Hact as <-; simpl. rewrite length_insert.
      specialize (Sw WRelease). simpl in *. lia.
    + destruct lk; injection Hact as <-; simpl; rewrite length_insert.
      * specialize (Sw WGet). simpl in *. lia.
      * specialize (Sw (WReport ValueError (bootstrap_report i ValueError))).
        simpl in *. lia.
    + destruct todo as [|t todo]; injection Hact as <-; simpl;
        rewrite length_insert.
      * specialize (Sw (WRaised e)). simpl in *. lia.
      * specialize (Sw (WReport e todo)). simpl in *. lia.
Qed.

Lemma runs_finite s : Acc (fun s' s => step s s') s.
Proof.
  apply (well_founded_lt_compat _ measure). intros x y. apply step_measure.
Qed.

Lemma always_ends_intro data (I P : state -> Prop) s0 :
  I s0 -> (forall s s', I s -> step s s' -> I s') ->
  (forall s, I s -> inv data s) ->
  (forall s, I s -> finished s -> P s) -> always_ends P s0.
Proof.
  intros H0 Hstep Hinv HP.
  assert (forall s, reachable s0 s -> I s) as Hr.
  { intros s Hr. induction Hr as [|s1 s2 s3 Hs _ IH]; eauto. }
  split; [apply runs_finite|]. split.
  - intros s Hs. eapply inv_progress, Hinv, Hr, Hs.
  - intros s Hs Hf. apply HP; [by apply Hr|done].
Qed.

(** A run that cannot block and cannot go on for ever reaches the end. *)
Lemma always_ends_reaches P s0 :
  always_ends P s0 -> exists s, reachable s0 s /\ finished s /\ P s.
Proof.
  intros (Hacc & Hprog & HP).
  assert (exists s, reachable s0 s /\ finished s) as (s & Hr & Hf).
  { clear HP. revert Hprog. induction Hacc as [s _ IH]. intros Hprog.
    destruct (Hprog s (rtc_refl _ _)) as [Hf|[s' Hs]].
    - exists s. split; [apply rtc_refl|done].
    - destruct (IH s' Hs) as (t & Ht & Hft).
      + intros u Hu. apply Hprog. eapply rtc_l; eauto.
      + exists t. split; [eapply rtc_l; eauto|done]. }
  exists s. eauto.
Qed.

(** ** What stays fixed, and what holds when [parallel] returns *)

Lemma act_frame a s s' :
  act a s = Some s' ->
  List.length (processes s') = List.length (processes s)
  /\ data_length s' = data_length s /\ start s' = start s /\ col s' = col s.
Proof.
  destruct a as [|i now]; simpl.
  - unfold main_step. destruct (main s) as [k|k| |]; [| | |done].
    + destruct (processes s !! k); intros [= <-]; simpl;
        rewrite ?length_insert; done.
    + destruct (processes s !! k) as [w|]; [destruct (exited w)|];
        intros [= <-]; done.
    + intros [= <-]; done.
  - unfold worker_step. destruct (processes s !! i) as [w|]; [|done].
    destruct w; simpl; try done.
    + destruct (src s); simpl; [|destruct (timed_out now)]; intros [= <-];
        simpl; rewrite length_insert; done.
    + destruct (work i x) as [|[]]; intros [= <-]; simpl;
        rewrite length_insert; done.
    + destruct (lock s); intros [= <-]; simpl; rewrite length_insert; done.
    + destruct (shared s); simpl; intros [= <-]; simpl; rewrite length_insert; done.
    + intros [= <-]; simpl; rewrite length_insert; done.
    + intros [= <-]; simpl; rewrite length_insert; done.
    + destruct (lock s); intros [= <-]; simpl; rewrite length_insert; done.
    + destruct todo; intros [= <-]; simpl; rewrite length_insert; done.
Qed.

Lemma reachable_frame s0 s :
  reachable s0 s ->
  List.length (processes s) = List.length (processes s0)
  /\ data_length s = data_length s0 /\ start s = start s0 /\ col s = col s0.
Proof.
  intros Hr. induction Hr as [|s1 s2 s3 [a Ha] _ IH]; [done|].
  destruct (act_frame _ _ _ Ha) as (-> & -> & -> & ->) in IH. done.
Qed.

Lemma finished_exited data s j w :
  inv data s -> finished s -> processes s !! j = Some w -> exited w = true.
Proof.
  intros Hinv Hf Hj. pose proof (inv_main _ _ Hinv) as Hm.
  rewrite Hf in Hm. eauto.
Qed.

Lemma finished_facts data s :
  inv data s -> finished s ->
  lock s = false
  /\ shared s = [Z.of_nat (ok_calls (calls s))]
  /\ List.length (meter s) = S (ok_calls (calls s))
  /\ data ≡ₚ (snd <$> calls s) ++ src s.
Proof.
  intros Hinv Hf.
  pose proof (finished_exited data s) as Hex.
  assert (forall f : wstate Item -> nat,
    (forall w, exited w = true -> f w = 0%nat) ->
    sum_list_with f (processes s) = 0%nat) as Hz.
  { intros f Hfz. apply all_zero_sum. eauto. }
  assert (in_flight (processes s) = []) as Hfl.
  { apply in_flight_nil. intros i x Hi.
    specialize (Hex i x Hinv Hf Hi). by destruct x. }
  destruct Hinv as [Hg Hfree Hh Hc Hp Hi Hm He Hl].
  rewrite Hz in Hg by (by intros []). rewrite Hz in Hp by (by intros []).
  rewrite Hfl in Hi. simpl in Hi.
  assert (lock s = false) as Hlk by (by destruct (lock s)).
  split; [done|]. split; [|split; [lia|done]].
  rewrite (Hfree Hlk). unfold rendered. f_equal. lia.
Qed.

(** With no exception out of a worker, [stderr] holds the rendered lines and
    the final newline. *)
Lemma finished_stderr data s :
  inv data s -> finished s -> sum_list_with died (processes s) = 0%nat ->
  stderr s = (render <$> meter s) ++ [NL].
Proof.
  intros Hinv Hf Hd. destruct (inv_stderr _ _ Hinv) as (body & He & _ & Hb).
  by rewrite He, Hf, (Hb Hd).
Qed.

(** ** The set-up *)

Lemma setup_total data process_cnt sh t0 t1 :
  exists s0, parallel_setup data process_cnt sh t0 t1 = Ok s0.
Proof.
  unfold parallel_setup. destruct sh as [[[w|] rows]|]; simpl; eauto.
Qed.

Lemma setup_fields data process_cnt sh t0 t1 s0 :
  parallel_setup data process_cnt sh t0 t1 = Ok s0 ->
  src s0 = data /\ shared s0 = [0] /\ lock s0 = false /\ calls s0 = []
  /\ processes s0 = replicate (Z.to_nat process_cnt) WNotStarted
  /\ main s0 = MStart 0 /\ start s0 = t0
  /\ console_col sh = Ok (col s0)
  /\ meter s0 = [(0, Z.of_nat (List.length data), tsub t1 t0, col s0)]
  /\ stderr s0 = [render (0, Z.of_nat (List.length data), tsub t1 t0, col s0)].
Proof.
  unfold parallel_setup. destruct (console_col sh) as [c|e]; simpl; [|done].
  intros [= <-]. simpl. by rewrite fold_put.
Qed.

Lemma always_ends_mono (P Q : state -> Prop) s0 :
  (forall s, P s -> Q s) -> always_ends P s0 -> always_ends Q s0.
Proof.
  intros HPQ (Ha & Hp & HP). split; [done|]. split; [done|]. auto.
Qed.

Lemma exec_reachable sched s s' : exec sched s = Some s' -> reachable s s'.
Proof.
  revert s. induction sched as [|a sched IH]; intros s; simpl.
  - intros [= ->]. apply rtc_refl.
  - destruct (act a s) as [s1|] eqn:Ha; [|done]. intros H.
    eapply rtc_l; [by apply (step_act _ _ a)|by apply IH].
Qed.

(** ** The gate, statement by statement *)

Lemma set_proc_lookup i y s :
  (i < List.length (processes s))%nat -> processes (set_proc i y s) !! i = Some y.
Proof. intros Hlt. simpl. by apply list_lookup_insert_eq. Qed.

(** Lines 22-25 from a state in which worker [i] has just taken the lock. *)
Lemma gate_steps i now s c :
  processes s !! i = Some WSharedGet -> shared s = [c] -> lock s = true ->
  let s1 := set_proc i (WWrite (c + 1)) (set_shared [] s) in
  let s2 := set_proc i (WPut (c + 1))
              (write_meter (c + 1, data_length s, tsub now (start s), col s) s1) in
  let s3 := set_proc i WRelease (set_shared [c + 1] s2) in
  let s4 := set_proc i WGet (set_lock false s3) in
  worker_step i now s = Some s1 /\ worker_step i now s1 = Some s2
  /\ worker_step i now s2 = Some s3 /\ worker_step i now s3 = Some s4.
Proof.
  intros Hw Hsh Hlk. pose proof (lookup_lt_Some _ _ _ Hw) as Hlt.
  destruct s as [sr sh lk er mt cl pr mn dl st cc]; simpl in *. subst sh lk.
  unfold worker_step; simpl. rewrite Hw. simpl.
  rewrite !list_lookup_insert_eq by (rewrite ?length_insert; done). done.
Qed.



(** ** What one transition can add to the logs *)


Lemma act_effects data a s s' :
  inv data s -> act a s = Some s' ->
  (meter s' = meter s \/ exists m, meter s' = meter s ++ [m])
  /\ (calls s' = calls s /\
        sum_list_with died (processes s') = sum_list_with died (processes s)
      \/ exists c, calls s' = calls s ++ [c]).
Proof.
  intros Hinv Hact. destruct a as [|i now]; simpl in Hact.
  - pose proof (inv_main _ _ Hinv) as Hm. unfold main_step in Hact.
    destruct (main s) as [k|k| |]; simpl in Hm; [| | |done].
    + destruct (processes s !! k) as [w|] eqn:Hk; injection Hact as <-; simpl;
        [|by auto 6].
      destruct (Hm _ _ Hk) as [_ Hns]. specialize (Hns (Nat.le_refl k)). subst w.
      pose proof (sum_insert died _ k _ WGet Hk) as Sd. simpl in Sd.
      repeat split; auto. left. split; [done|lia].
    + destruct (processes s !! k) as [w|]; [destruct (exited w)|]; try done;
        injection Hact as <-; simpl; auto 6.
    + injection Hact as <-; simpl; auto 6.
  - unfold worker_step in Hact.
    destruct (processes s !! i) as [w|] eqn:Hw; [|done].
    pose proof (gate_locked data s i w Hinv Hw) as Hlk.
    pose proof (fun y => sum_insert died _ i w y Hw) as Sd.
    destruct w as [| |x| | |v|v| | |e todo|e]; simpl in Hact; try done.
    + destruct (src s) as [|x q] eqn:Hsrc; [|destruct (timed_out now)];
        injection Hact as <-; simpl;
        match goal with |- context [<[i:=?y]> _] => specialize (Sd y) end;
        simpl in Sd; (split; [by left|]); left; (split; [done|lia]).
    + destruct (work i x) as [|[]]; injection Hact as <-; simpl;
        repeat split; eauto.
    + destruct (lock s); [done|]. injection Hact as <-; simpl.
      specialize (Sd WSharedGet). simpl in Sd.
      repeat split; auto. left. split; [done|lia].
    + destruct (shared s) as [|c q]; [done|]. injection Hact as <-; simpl.
      specialize (Sd (WWrite (c + 1))). simpl in Sd.
      repeat split; eauto. left. split; [done|lia].
    + injection Hact as <-; simpl.
      specialize (Sd (WPut v)). simpl in Sd.
      repeat split; eauto. left. split; [done|lia].
    + injection Hact as <-; simpl.
      specialize (Sd WRelease). simpl in Sd.
      repeat split; eauto. left. split; [done|lia].
    + rewrite (Hlk eq_refl) in Hact. injection Hact as <-; simpl.
      specialize (Sd WGet). simpl in Sd.
      repeat split; auto. left. split; [done|lia].
    + destruct todo as [|t todo]; injection Hact as <-; simpl;
        match goal with |- context [<[i:=?y]> _] => specialize (Sd y) end;
        simpl in Sd; (split; [by left|]); left; (split; [done|lia]).
Qed.

(** ** Properties of the runs *)


(** C10: in every state of every run the counter queue holds one value
    whenever the lock is free, and never more than one; a worker that has
    taken the lock removes that value [c] (the queue is then empty), writes,
    puts back [c + 1], and only then frees the lock. *)
Theorem counter_cell_holds_one_value data process_cnt sh t0 t1 s0 s :
  parallel_setup data process_cnt sh t0 t1 = Ok s0 -> reachable s0 s ->
  (lock s = false -> exists c, shared s = [c])
  /\ (List.length (shared s) <= 1)%nat
  /\ (forall i w, processes s !! i = Some w ->
        match w with
        | WSharedGet | WRelease => lock s = true /\ exists c, shared s = [c]
        | WWrite _ | WPut _ => lock s = true /\ shared s = []
        | _ => True
        end)
  /\ (forall i now, processes s !! i = Some WSharedGet ->
        exists c s1 s2 s3 s4, shared s = [c]
          /\ worker_step i now s = Some s1 /\ shared s1 = [] /\ lock s1 = true
          /\ worker_step i now s1 = Some s2 /\ shared s2 = [] /\ lock s2 = true
          /\ worker_step i now s2 = Some s3 /\ shared s3 = [c + 1] /\ lock s3 = true
          /\ worker_step i now s3 = Some s4 /\ shared s4 = [c + 1] /\ lock s4 = false).
Proof.
  intros Hset Hr.
  pose proof (reachable_inv data s0 s (setup_inv _ _ _ _ _ _ Hset) Hr) as Hinv.
  assert (forall i w, processes s !! i = Some w ->
    match w with
    | WSharedGet | WRelease => lock s = true /\ exists c, shared s = [c]
    | WWrite _ | WPut _ => lock s = true /\ shared s = []
    | _ => True
    end) as Hpc.
  { intros i w Hw. pose proof (inv_held _ _ Hinv i w Hw) as Hok.
    pose proof (gate_locked data s i w Hinv Hw) as Hlk.
    destruct w; simpl in *; try done; split; auto; try tauto; eauto. }
  split; [|split; [|split]].
  - intros Hlk. rewrite (inv_free _ _ Hinv Hlk). eauto.
  - destruct (lock s) eqn:Hlk.
    + pose proof (inv_gate _ _ Hinv) as Hg. rewrite Hlk in Hg.
      destruct (sum_pos_exists gate_n (processes s)) as (j & w & Hj & Hpos); [lia|].
      specialize (Hpc j w Hj).
      destruct w; simpl in Hpos; try lia;
        destruct Hpc as [_ Hc]; [destruct Hc as [c Hc]| | |destruct Hc as [c Hc]];
        rewrite Hc; simpl; lia.
    + rewrite (inv_free _ _ Hinv Hlk). simpl. lia.
  - exact Hpc.
  - intros i now Hw. destruct (Hpc i _ Hw) as [Hlk [c Hc]].
    destruct (gate_steps i now s c Hw Hc Hlk) as (H1 & H2 & H3 & H4).
    eexists c, _, _, _, _. split; [done|].
    rewrite H1, H2, H3, H4. simpl. rewrite Hlk. done.
Qed.

(** C8: when the terminal gives no width ([_screen_shape_wrapper] answers
    [None], or the shape has no columns) the width expression raises
    [TypeError], the set-up does not fail, [col] is 10, the first line is
    formatted with it, and the run goes on to its end. *)
Theorem width_fallback data process_cnt sh t0 t1 :
  sh = None \/ (exists rows, sh = Some (None, rows)) ->
  screen_cols sh = Raise TypeError
  /\ exists s0, parallel_setup data process_cnt sh t0 t1 = Ok s0
       /\ col s0 = 10
       /\ meter s0 = [(0, Z.of_nat (List.length data), tsub t1 t0, 10)]
       /\ always_ends (fun s => col s = 10) s0.
Proof.
  intros Hsh.
  assert (screen_cols sh = Raise TypeError) as Hraise
    by (destruct Hsh as [->|[rows ->]]; done).
  split; [done|].
  destruct (setup_total data process_cnt sh t0 t1) as [s0 Hset].
  destruct (setup_fields _ _ _ _ _ _ Hset) as (_&_&_&_&_&_&_& Hcol & Hm & _).
  unfold console_col in Hcol. rewrite Hraise in Hcol. injection Hcol as Hcol.
  exists s0. split; [done|]. split; [done|]. split; [by rewrite Hm, <- Hcol|].
  apply (always_ends_intro data (fun s => inv data s /\ col s = 10)).
  - split; [by eapply setup_inv|done].
  - intros s s' [Hinv Hc] Hs. split; [by eapply step_inv|].
    destruct Hs as [a Ha]. destruct (act_frame _ _ _ Ha) as (_ & _ & _ & ->). done.
  - by intros s [? _].
  - by intros s [_ ?] _.
Qed.

(** C7, as the code has it: [parallel] does not check [process_cnt].  With
    [process_cnt < 1] the set-up raises nothing, no worker exists, and every
    run returns normally with no item passed to [work], the queue and the
    counter as the set-up left them, and only the first line and the newline
    written. *)
Theorem no_worker_no_work data process_cnt sh t0 t1 :
  process_cnt < 1 ->
  exists s0, parallel_setup data process_cnt sh t0 t1 = Ok s0
    /\ processes s0 = []
    /\ always_ends (fun s =>
         calls s = [] /\ src s = data /\ shared s = [0]
         /\ stderr s
            = [render (0, Z.of_nat (List.length data), tsub t1 t0, col s0); NL]) s0.
Proof.
  intros Hcnt.
  destruct (setup_total data process_cnt sh t0 t1) as [s0 Hset].
  destruct (setup_fields _ _ _ _ _ _ Hset)
    as (Hsrc & Hsh & _ & Hcl & Hpr & _ & _ & _ & Hm & _).
  replace (Z.to_nat process_cnt) with 0%nat in Hpr by lia. simpl in Hpr.
  exists s0. split; [done|]. split; [done|].
  apply (always_ends_intro data (fun s =>
    inv data s /\ processes s = [] /\ calls s = [] /\ src s = data
    /\ shared s = [0] /\ meter s = meter s0)).
  - split; [by eapply setup_inv|done].
  - intros s s' (Hinv & Hp & Hc & Hs & Hh & Hmt) Hstep.
    split; [by eapply step_inv|]. destruct Hstep as [[|i now] Ha]; simpl in Ha.
    + unfold main_step in Ha. rewrite Hp in Ha.
      destruct (main s) as [k|k| |]; [| | |done]; injection Ha as <-; done.
    + unfold worker_step in Ha. rewrite Hp in Ha. done.
  - by intros s [? _].
  - intros s (Hinv & Hp & Hc & Hs & Hh & Hmt) Hf.
    repeat (split; [done|]).
    rewrite (finished_stderr _ _ Hinv Hf), Hmt, Hm; [done|]. by rewrite Hp.
Qed.

(** C3, as the code has it: with no item, [parallel] writes one line, for
    count 0 of 0, starts [process_cnt] workers, each of which finds the queue
    empty and returns with no call of [work] and no render, then writes the
    newline and returns; no run blocks, and none goes on for ever. *)
Theorem empty_data_run process_cnt sh t0 t1 :
  exists s0, parallel_setup [] process_cnt sh t0 t1 = Ok s0
    /\ List.length (processes s0) = Z.to_nat process_cnt
    /\ always_ends (fun s =>
         stderr s = [render (0, 0, tsub t1 t0, col s0); NL]
         /\ calls s = [] /\ shared s = [0]
         /\ List.length (processes s) = Z.to_nat process_cnt
         /\ (forall j w, processes s !! j = Some w -> w = WReturned)) s0.
Proof.
  destruct (setup_total [] process_cnt sh t0 t1) as [s0 Hset].
  destruct (setup_fields _ _ _ _ _ _ Hset)
    as (_ & _ & _ & Hcl & Hpr & _ & _ & _ & Hm & _).
  assert (List.length (processes s0) = Z.to_nat process_cnt) as Hlen
    by (by rewrite Hpr, length_replicate).
  assert (forall s, inv [] s -> calls s = []) as Hnocall.
  { intros s Hinv. pose proof (inv_items _ _ Hinv) as Hi.
    apply Permutation_nil, app_eq_nil in Hi as [Hi _].
    by apply fmap_nil_inv in Hi. }
  exists s0. split; [done|]. split; [done|].
  apply (always_ends_intro [] (fun s =>
    inv [] s /\ meter s = meter s0
    /\ sum_list_with died (processes s) = 0%nat
    /\ List.length (processes s) = Z.to_nat process_cnt)).
  - split; [by eapply setup_inv|]. split; [done|]. split; [|done].
    rewrite Hpr. apply all_zero_sum. by intros i x [-> _]%lookup_replicate.
  - intros s s' (Hinv & Hmt & Hd & Hl) Hstep.
    pose proof (step_inv _ _ _ Hinv Hstep) as Hinv'.
    destruct Hstep as [a Ha].
    destruct (act_effects _ _ _ _ Hinv Ha) as (Hme & Hce).
    destruct (act_frame _ _ _ Ha) as (Hl' & _).
    split; [done|]. split; [|split; [|lia]].
    + destruct Hme as [->|[m Hme]]; [done|].
      pose proof (inv_pending _ _ Hinv') as Hp.
      rewrite (Hnocall _ Hinv'), Hme, Hmt, Hm, length_app in Hp.
      simpl in Hp. lia.
    + destruct Hce as [[_ ->]|[c Hc]]; [done|].
      rewrite (Hnocall _ Hinv), (Hnocall _ Hinv') in Hc. done.
  - by intros s [? _].
  - intros s (Hinv & Hmt & Hd & Hl) Hf.
    destruct (finished_facts _ _ Hinv Hf) as (_ & Hsh & _).
    rewrite (Hnocall _ Hinv) in Hsh.
    split; [by rewrite (finished_stderr _ _ Hinv Hf Hd), Hmt, Hm|].
    split; [by apply Hnocall|]. split; [done|]. split; [done|].
    intros j w Hj. pose proof (finished_exited _ _ _ _ Hinv Hf Hj) as Hex.
    pose proof (sum_zero_all died _ _ _ Hd Hj) as Hz.
    by destruct w.
Qed.

(** *** One worker *)

Lemma sequential_loop_calls data d d' :
  (sequential_loop data d).1 = (sequential_loop data d').1.
Proof.
  revert d d'. induction data as [|x data IH]; intros d d'; simpl; [done|].
  destruct (work 0%nat x); simpl; [|done]. f_equal. apply IH.
Qed.

Lemma seq_calls_cons x q :
  seq_calls (x :: q)
  = (0%nat, x) :: match work 0%nat x with Returns => seq_calls q | Raises _ => [] end.
Proof.
  unfold seq_calls. simpl. destruct (work 0%nat x); simpl; [|done].
  f_equal. apply sequential_loop_calls.
Qed.

Lemma sequential_loop_counts data d :
  (sequential_loop data d).2
  = (fun k => d + Z.of_nat k) <$> seq 1 (ok_calls (sequential_loop data d).1).
Proof.
  revert d. induction data as [|x data IH]; intros d; simpl; [done|].
  destruct (work 0%nat x) eqn:Hx; simpl; unfold ok_calls; simpl; rewrite Hx;
    [|done].
  simpl. f_equal; try lia. rewrite IH. fold (ok_calls (sequential_loop data (d + 1)).1).
  rewrite <- (fmap_S_seq 1), <- list_fmap_compose.
  apply list_fmap_ext. intros _ k _. simpl. lia.
Qed.

Lemma setup_seq_inv data sh t0 t1 s0 :
  parallel_setup data 1 sh t0 t1 = Ok s0 -> seq_inv data s0.
Proof.
  intros Hset. destruct (setup_fields _ _ _ _ _ _ Hset)
    as (Hsrc & _ & _ & Hcl & Hpr & _).
  exists WNotStarted, (seq_calls data). rewrite Hpr, Hcl, Hsrc. done.
Qed.

Lemma step_seq_inv data s s' :
  inv data s -> seq_inv data s -> step s s' -> seq_inv data s'.
Proof.
  intros Hinv (w & rest & Hp & Hseq & Hrest) [[|i now] Hact]; simpl in Hact.
  - pose proof (inv_main _ _ Hinv) as Hm. unfold main_step in Hact.
    destruct (main s) as [k|k| |]; simpl in Hm; [| | |done].
    + destruct (processes s !! k) as [w'|] eqn:Hk; injection Hact as <-;
        [|by exists w, rest].
      destruct (Hm _ _ Hk) as [_ Hns]. specialize (Hns (Nat.le_refl k)). subst w'.
      rewrite Hp in Hk. destruct k as [|k]; [|done]. injection Hk as ->.
      exists WGet, rest. simpl. rewrite Hp. split; [done|]. split; [done|].
      intros _. apply Hrest. by left.
    + destruct (processes s !! k) as [w'|]; [destruct (exited w')|]; try done;
        injection Hact as <-; by exists w, rest.
    + injection Hact as <-. by exists w, rest.
  - unfold worker_step in Hact.
    destruct (processes s !! i) as [w'|] eqn:Hw; [|done].
    pose proof (gate_locked data s i w' Hinv Hw) as Hlk.
    rewrite Hp in Hw. destruct i as [|i]; [|done]. injection Hw as <-.
    assert (forall y q cs r,
      s' = State q (shared s') (lock s') (stderr s') (meter s') cs
                 (<[0%nat:=y]> (processes s)) (main s')
                 (data_length s') (start s') (col s') ->
      seq_calls data = cs ++ r ->
      (ended y = 0%nat \/ no_early_timeout -> r = rest_calls y q) ->
      seq_inv data s') as Hnew.
    { intros y q cs r Hs' Hcs Hr. exists y, r. rewrite Hs', Hp. simpl. done. }
    destruct w as [| |x| | |v|v| | |e todo|e]; simpl in Hact; try done.
    + specialize (Hrest (or_introl eq_refl)). simpl in Hrest.
      destruct (src s) as [|x q] eqn:Hq; [|destruct (timed_out now) eqn:Hto];
        injection Hact as <-.
      * eapply Hnew; [reflexivity|exact Hseq|]. by intros _.
      * eapply Hnew; [reflexivity|exact Hseq|]. simpl.
        intros [|Hno]; [done|]. by rewrite Hno in Hto.
      * eapply Hnew; [reflexivity|exact Hseq|]. by intros _.
    + specialize (Hrest (or_introl eq_refl)). simpl in Hrest.
      rewrite seq_calls_cons in Hrest. subst rest.
      destruct (work 0%nat x) as [|[]]; injection Hact as <-;
        (eapply Hnew; [reflexivity| |]); simpl;
        rewrite ?Hseq, <- ?app_assoc; simpl; try done;
        by rewrite app_nil_r.
    + specialize (Hrest (or_introl eq_refl)).
      destruct (lock s); [done|]. injection Hact as <-.
      by (eapply Hnew; [reflexivity|exact Hseq|]).
    + specialize (Hrest (or_introl eq_refl)).
      destruct (shared s) as [|c q]; [done|]. injection Hact as <-.
      by (eapply Hnew; [reflexivity|exact Hseq|]).
    + specialize (Hrest (or_introl eq_refl)).
      injection Hact as <-. by (eapply Hnew; [reflexivity|exact Hseq|]).
    + specialize (Hrest (or_introl eq_refl)).
      injection Hact as <-. by (eapply Hnew; [reflexivity|exact Hseq|]).
    + specialize (Hrest (or_introl eq_refl)).
      rewrite (Hlk eq_refl) in Hact. injection Hact as <-.
      by (eapply Hnew; [reflexivity|exact Hseq|]).
    + destruct todo as [|t todo]; injection Hact as <-;
        (eapply Hnew; [reflexivity|exact Hseq|]); simpl; intros [|Hno];
        try done; by apply Hrest; right.
Qed.

Lemma reachable_seq_inv data sh t0 t1 s0 s :
  parallel_setup data 1 sh t0 t1 = Ok s0 -> reachable s0 s ->
  inv data s /\ seq_inv data s.
Proof.
  intros Hset Hr.
  pose proof (setup_inv _ _ _ _ _ _ Hset) as Hinv0.
  pose proof (setup_seq_inv _ _ _ _ _ Hset) as Hseq0.
  clear Hset. induction Hr as [|s1 s2 s3 Hs _ IH]; [done|].
  apply IH; [by eapply step_inv|by eapply step_seq_inv].
Qed.

(** X12: with [process_cnt = 1] the single worker takes the items in the
    order of [data]: at every moment of every run the calls of [work] made so
    far are the first calls of the sequential loop
    [for item in data: work(0, item)], in the same order and with index 0.
    If moreover no [src.get] gives up while items are queued, every run ends
    with exactly the calls and the rendered counts of the sequential loop. *)
Theorem single_worker_keeps_order data sh t0 t1 :
  exists s0, parallel_setup data 1 sh t0 t1 = Ok s0
    /\ (forall s, reachable s0 s ->
          exists rest, (sequential_loop data 0).1 = calls s ++ rest)
    /\ ((forall now, timed_out now = false) ->
        always_ends (fun s =>
          calls s = (sequential_loop data 0).1
          /\ meter_count <$> meter s = 0 :: (sequential_loop data 0).2) s0).
Proof.
  destruct (setup_total data 1 sh t0 t1) as [s0 Hset].
  exists s0. split; [done|]. split.
  - intros s Hr.
    destruct (reachable_seq_inv _ _ _ _ _ _ Hset Hr) as [_ (w & rest & _ & Hseq & _)].
    by exists rest.
  - intros Hno.
    apply (always_ends_intro data (fun s => inv data s /\ seq_inv data s)).
    + split; [by eapply setup_inv|by eapply setup_seq_inv].
    + intros s s' [Hinv Hseq] Hs.
      split; [by eapply step_inv|by eapply step_seq_inv].
    + by intros s [? _].
    + intros s [Hinv (w & rest & Hp & Hseq & Hrest)] Hf.
      assert (processes s !! 0%nat = Some w) as Hw by (by rewrite Hp).
      pose proof (finished_exited _ _ _ _ Hinv Hf Hw) as Hex.
      assert (calls s = seq_calls data) as Hcalls.
      { rewrite Hseq, Hrest by (by right).
        destruct w; simpl in *; try done; by rewrite app_nil_r. }
      split; [done|].
      destruct (finished_facts _ _ Hinv Hf) as (_ & _ & Hlen & _).
      rewrite (inv_counts _ _ Hinv), Hlen, sequential_loop_counts.
      fold (seq_calls data). rewrite <- Hcalls. unfold counts. simpl. done.
Qed.

(** *** A failing call of [work] *)

(** What the worker does after [work] has raised [e]: nothing is put back
    into [src], the lock and the counter are as they were, and the loop is
    over; the worker returns if [e] is [Empty], and [e] leaves [_worker] to
    be reported otherwise. *)
Lemma work_raises_step i now s x e :
  processes s !! i = Some (WWork x) -> work i x = Raises e ->
  worker_step i now s
  = Some (set_proc i (match e with
                      | Empty => WReturned
                      | _ => WReport e (bootstrap_report i e)
                      end)
            (log_call i x s)).
Proof.
  intros Hw Hx. unfold worker_step. rewrite Hw, Hx. by destruct e.
Qed.

(** ** More about the runs: the logs, the failures, the end *)

(** Calls of [work] that raised. *)
Definition failed_calls (cs : list (nat * Item)) : nat :=
  sum_list_with (fun c => match work c.1 c.2 with Returns => 0%nat | Raises _ => 1%nat end) cs.


(** Induction along a run, the start fixed. *)
Lemma reachable_ind_r (P : state -> Prop) s0 :
  P s0 -> (forall s s', reachable s0 s -> step s s' -> P s -> P s') ->
  forall s, reachable s0 s -> P s.
Proof. intros H0 Hs s Hr. by eapply (rtc_ind_r P s0). Qed.

(** What one transition does to the queue of items and to the three logs. *)
Lemma act_log a s s' :
  act a s = Some s' ->
  (src s' = src s \/ exists x, src s = x :: src s')
  /\ (calls s' = calls s
      \/ exists i x, processes s !! i = Some (WWork x)
           /\ calls s' = calls s ++ [(i, x)])
  /\ (meter s' = meter s /\ stderr s' = stderr s
      \/ (exists v now,
            let a := (v, data_length s, tsub now (start s), col s) in
            meter s' = meter s ++ [a] /\ stderr s' = stderr s ++ [render a])
      \/ (meter s' = meter s /\ exists t, stderr s' = stderr s ++ [t])).
Proof.
  destruct a as [|i now]; simpl.
  - unfold main_step. destruct (main s) as [k|k| |]; [| | |done].
    + destruct (processes s !! k); intros [= <-]; simpl; auto.
    + destruct (processes s !! k) as [w|]; [destruct (exited w)|]; try done;
        intros [= <-]; simpl; auto.
    + intros [= <-]; simpl. split; [auto|]. split; [auto|]. right. right. eauto.
  - unfold worker_step. destruct (processes s !! i) as [w|] eqn:Hw; [|done].
    destruct w as [| |x| | |v|v| | |e todo|e]; simpl; try done.
    + destruct (src s) as [|x q] eqn:Hsrc; simpl; [|destruct (timed_out now)];
        intros [= <-]; simpl; rewrite ?Hsrc; (split; [|split]); eauto.
    + destruct (work i x) as [|[]]; intros [= <-]; simpl;
        (split; [|split]); eauto.
    + destruct (lock s); intros [= <-]; simpl; auto.
    + destruct (shared s); simpl; intros [= <-]; simpl; auto.
    + intros [= <-]; simpl. split; [auto|]. split; [auto|]. right. left. eauto.
    + intros [= <-]; simpl; auto.
    + destruct (lock s); intros [= <-]; simpl; auto.
    + destruct todo as [|t todo]; intros [= <-]; simpl; [auto|].
      split; [auto|]. split; [auto|]. right. right. eauto.
Qed.

(** X1: nothing is ever put back into the queue of items and the logs only
    grow: from any state of a run to any later one, [src] loses items at its
    front, and the calls of [work], the calls of [format_meter] and the
    writes to [stderr] are extended at their end. *)
Theorem logs_only_grow data process_cnt sh t0 t1 :
  exists s0, parallel_setup data process_cnt sh t0 t1 = Ok s0
    /\ forall s s', reachable s0 s -> reachable s s' ->
         src s' `suffix_of` src s
         /\ src s `suffix_of` data
         /\ calls s `prefix_of` calls s'
         /\ meter s `prefix_of` meter s'
         /\ stderr s `prefix_of` stderr s'.
Proof.
  destruct (setup_total data process_cnt sh t0 t1) as [s0 Hset].
  exists s0. split; [done|].
  assert (forall s s', reachable s s' ->
    src s' `suffix_of` src s /\ calls s `prefix_of` calls s'
    /\ meter s `prefix_of` meter s' /\ stderr s `prefix_of` stderr s') as Hmono.
  { intros s s' Hr. induction Hr as [|s1 s2 s3 [a Ha] _ IH]; [done|].
    destruct IH as (Hs & Hc & Hm & He).
    destruct (act_log _ _ _ Ha) as (Hs' & Hc' & Hm').
    split; [|split; [|split]].
    - destruct Hs' as [<-|[x ->]]; [done|]. by apply suffix_cons_r.
    - etrans; [|exact Hc]. destruct Hc' as [->|(i & x & _ & ->)]; [done|].
      by apply prefix_app_r.
    - etrans; [|exact Hm].
      destruct Hm' as [[-> _]|[(v & now & -> & _)|[-> _]]];
        done || by apply prefix_app_r.
    - etrans; [|exact He].
      destruct Hm' as [[_ ->]|[(v & now & _ & ->)|[_ [t ->]]]];
        done || by apply prefix_app_r. }
  intros s s' Hr Hr'. destruct (Hmono s s' Hr') as (H1 & H2 & H3 & H4).
  destruct (Hmono s0 s Hr) as (H0 & _).
  destruct (setup_fields _ _ _ _ _ _ Hset) as (Hsrc & _). rewrite Hsrc in H0.
  done.
Qed.


Lemma ok_calls_le cs : (ok_calls cs <= List.length cs)%nat.
Proof.
  unfold ok_calls. induction cs as [|c cs IH]; simpl; [done|].
  destruct (work c.1 c.2); lia.
Qed.

Lemma ok_failed_calls cs : (ok_calls cs + failed_calls cs = List.length cs)%nat.
Proof.
  unfold ok_calls, failed_calls. induction cs as [|c cs IH]; simpl; [done|].
  destruct (work c.1 c.2); lia.
Qed.


(** X3: at every moment of every run, whatever [work] does, each item of
    [data] is in exactly one place: passed to [work], taken by a worker that
    has not called [work] yet, or still in [src].  So no item is ever passed
    to [work] twice, and when [parallel] returns each item was passed once or
    is still in the queue. *)
Theorem items_worked_or_left data process_cnt sh t0 t1 :
  exists s0, parallel_setup data process_cnt sh t0 t1 = Ok s0
    /\ (forall s, reachable s0 s ->
          data ≡ₚ (snd <$> calls s) ++ in_flight (processes s) ++ src s)
    /\ always_ends (fun s => data ≡ₚ (snd <$> calls s) ++ src s) s0.
Proof.
  destruct (setup_total data process_cnt sh t0 t1) as [s0 Hset].
  pose proof (setup_inv _ _ _ _ _ _ Hset) as Hinv0.
  exists s0. split; [done|]. split.
  - intros s Hr. apply inv_items. by eapply reachable_inv.
  - apply (always_ends_intro data (inv data)); [done|apply step_inv|done|].
    intros s Hinv Hf. by destruct (finished_facts _ _ Hinv Hf) as (_ & _ & _ & ?).
Qed.

(** X4: the progress never passes the total: at every moment of every run
    each count passed to [format_meter] is between 0 and [len(data)], and the
    number of renders is at most one more than the calls of [work] that have
    returned. *)
Theorem render_count_within_total data process_cnt sh t0 t1 :
  exists s0, parallel_setup data process_cnt sh t0 t1 = Ok s0
    /\ forall s, reachable s0 s ->
         Forall (fun a => 0 <= meter_count a <= Z.of_nat (List.length data)) (meter s)
         /\ (List.length (meter s) <= S (ok_calls (calls s)))%nat.
Proof.
  destruct (setup_total data process_cnt sh t0 t1) as [s0 Hset].
  exists s0. split; [done|]. intros s Hr.
  pose proof (reachable_inv data s0 s (setup_inv _ _ _ _ _ _ Hset) Hr) as Hinv.
  pose proof (inv_pending _ _ Hinv) as Hp.
  pose proof (inv_items _ _ Hinv) as Hi. apply Permutation_length in Hi.
  rewrite !length_app, length_fmap in Hi.
  pose proof (ok_calls_le (calls s)) as Hle.
  split; [|lia].
  apply Forall_forall. intros a Ha.
  assert (meter_count a ∈ meter_count <$> meter s) as Hin
    by (by apply list_elem_of_fmap_2).
  rewrite (inv_counts _ _ Hinv) in Hin. unfold counts in Hin.
  apply list_elem_of_fmap in Hin as (k & -> & Hk). apply elem_of_seq in Hk. lia.
Qed.

(** While items are left in the queue, the workers whose loop is over are
    those whose call of [work] raised. *)
Definition ends_inv (s : state) : Prop :=
  src s <> [] -> sum_list_with ended (processes s) = failed_calls (calls s).

Lemma failed_calls_snoc cs i x :
  failed_calls (cs ++ [(i, x)])
  = (failed_calls cs + match work i x with Returns => 0 | Raises _ => 1 end)%nat.
Proof. unfold failed_calls. rewrite sum_list_with_app. simpl. lia. Qed.

Lemma setup_ends_inv data process_cnt sh t0 t1 s0 :
  parallel_setup data process_cnt sh t0 t1 = Ok s0 -> ends_inv s0.
Proof.
  intros Hset. destruct (setup_fields _ _ _ _ _ _ Hset)
    as (_ & _ & _ & Hcl & Hpr & _).
  intros _. rewrite Hcl, Hpr. simpl. apply all_zero_sum.
  by intros i x [-> _]%lookup_replicate.
Qed.

Lemma step_ends_inv data s s' :
  no_early_timeout -> inv data s -> ends_inv s -> step s s' -> ends_inv s'.
Proof.
  unfold ends_inv. intros Hno Hinv Hends [[|i now] Hact]; simpl in Hact.
  - pose proof (inv_main _ _ Hinv) as Hm. unfold main_step in Hact.
    destruct (main s) as [k|k| |]; simpl in Hm; [| | |done].
    + destruct (processes s !! k) as [w|] eqn:Hk; injection Hact as <-; [|done].
      destruct (Hm _ _ Hk) as [_ Hns]. specialize (Hns (Nat.le_refl k)). subst w.
      pose proof (sum_insert ended _ k _ WGet Hk) as Se.
      intros Hsrc. specialize (Hends Hsrc). simpl in *. lia.
    + destruct (processes s !! k) as [w|]; [destruct (exited w)|];
        try done; injection Hact as <-; done.
    + injection Hact as <-. done.
  - unfold worker_step in Hact.
    destruct (processes s !! i) as [w|] eqn:Hw; [|done].
    pose proof (gate_locked data s i w Hinv Hw) as Hlk.
    pose proof (fun y => sum_insert ended _ i w y Hw) as Se.
    destruct w as [| |x| | |v|v| | |e todo|e]; simpl in Hact; try done.
    + rewrite Hno in Hact.
      destruct (src s) as [|x q] eqn:Hsrc; injection Hact as <-.
      { intros Hq. simpl in Hq. by rewrite Hsrc in Hq. }
      specialize (Se (WWork x)). intros Hq. simpl in *.
      specialize (Hends ltac:(done)). lia.
    + specialize (Se (match work i x with
                      | Returns => WAcquire
                      | Raises Empty => WReturned
                      | Raises e => WReport e (bootstrap_report i e)
                      end)).
      intros Hsrc.
      assert (src s <> []) as Hsrc'
        by (destruct (work i x) as [|[]]; injection Hact as <-; done).
      specialize (Hends Hsrc').
      destruct (work i x) as [|[]] eqn:Hx; injection Hact as <-; simpl in *;
        rewrite failed_calls_snoc, Hx; lia.
    + destruct (lock s); [done|]. injection Hact as <-.
      specialize (Se WSharedGet). intros Hsrc. specialize (Hends Hsrc).
      simpl in *. lia.
    + destruct (shared s) as [|c q]; [done|]. injection Hact as <-.
      specialize (Se (WWrite (c + 1))). intros Hsrc. specialize (Hends Hsrc).
      simpl in *. lia.
    + injection Hact as <-.
      specialize (Se (WPut v)). intros Hsrc. specialize (Hends Hsrc).
      simpl in *. lia.
    + injection Hact as <-.
      specialize (Se WRelease). intros Hsrc. specialize (Hends Hsrc).
      simpl in *. lia.
    + rewrite (Hlk eq_refl) in Hact. injection Hact as <-.
      specialize (Se WGet). intros Hsrc. specialize (Hends Hsrc).
      simpl in *. lia.
    + destruct todo as [|t todo]; injection Hact as <-.
      * specialize (Se (WRaised e)). intros Hsrc. specialize (Hends Hsrc).
        simpl in *. lia.
      * specialize (Se (WReport e todo)). intros Hsrc. specialize (Hends Hsrc).
        simpl in *. lia.
Qed.

Lemma sum_all_one (f : wstate Item -> nat) (l : list (wstate Item)) :
  (forall i x, l !! i = Some x -> f x = 1%nat) -> sum_list_with f l = List.length l.
Proof.
  induction l as [|a l IH]; intros H; simpl; [done|].
  rewrite (H 0%nat a eq_refl), IH; [done|]. intros i x Hi. apply (H (S i) x Hi).
Qed.

(** When no [src.get] gives up early, a run ends with the queue drained
    unless every worker was ended by a raising call. *)
Lemma drained_run data process_cnt sh t0 t1 s0 (P : state -> Prop) :
  no_early_timeout ->
  parallel_setup data process_cnt sh t0 t1 = Ok s0 ->
  (forall s, inv data s -> finished s ->
     src s = [] \/ failed_calls (calls s) = Z.to_nat process_cnt -> P s) ->
  always_ends P s0.
Proof.
  intros Hno Hset HP.
  apply (always_ends_intro data (fun s =>
    inv data s /\ ends_inv s
    /\ List.length (processes s) = Z.to_nat process_cnt)).
  - split; [by eapply setup_inv|]. split; [by eapply setup_ends_inv|].
    destruct (setup_fields _ _ _ _ _ _ Hset) as (_ & _ & _ & _ & -> & _).
    by rewrite length_replicate.
  - intros s s' (Hinv & Hends & Hlen) Hs. split; [by eapply step_inv|].
    split; [by eapply step_ends_inv|].
    destruct Hs as [a Ha]. destruct (act_frame _ _ _ Ha) as [-> _]. done.
  - by intros s [? _].
  - intros s (Hinv & Hends & Hlen) Hf. apply HP; [done..|].
    destruct (src s) as [|x q] eqn:Hsrc; [by left|right].
    rewrite <- Hends by (rewrite ?Hsrc; done). rewrite <- Hlen.
    apply sum_all_one. intros i w Hw.
    pose proof (finished_exited _ _ _ _ Hinv Hf Hw). by destruct w.
Qed.

(** X5: when no [src.get] gives up while items are queued, items are left
    unprocessed only if every worker was ended by a raising call: when
    [parallel] returns, either the queue is empty or the number of calls of
    [work] that raised is the number of workers.  So with fewer raising calls
    than workers every item was passed to [work], each exactly once; and if
    there is a worker and no call raised, the counter ends at [len(data)] and
    the counts rendered are 0, 1, ..., [len(data)]. *)
Theorem fewer_failures_than_workers data process_cnt sh t0 t1 :
  (forall now, timed_out now = false) ->
  exists s0, parallel_setup data process_cnt sh t0 t1 = Ok s0
    /\ always_ends (fun s =>
         (src s = [] \/ failed_calls (calls s) = Z.to_nat process_cnt)
         /\ ((failed_calls (calls s) < Z.to_nat process_cnt)%nat ->
               src s = [] /\ (snd <$> calls s) ≡ₚ data)
         /\ (1 <= process_cnt -> failed_calls (calls s) = 0%nat ->
               shared s = [Z.of_nat (List.length data)]
               /\ meter_count <$> meter s
                  = 0 :: ((fun j => Z.of_nat j) <$> seq 1 (List.length data)))) s0.
Proof.
  intros Hno.
  destruct (setup_total data process_cnt sh t0 t1) as [s0 Hset].
  exists s0. split; [done|].
  eapply drained_run; [exact Hno|exact Hset|].
  intros s Hinv Hf Hor.
  destruct (finished_facts _ _ Hinv Hf) as (_ & Hsh & Hlen & Hperm).
  assert ((failed_calls (calls s) < Z.to_nat process_cnt)%nat ->
          src s = [] /\ (snd <$> calls s) ≡ₚ data) as Hall.
  { intros Hlt. destruct Hor as [Hsrc|]; [|lia]. split; [done|].
    by rewrite Hsrc, app_nil_r in Hperm. }
  split; [done|]. split; [done|].
  intros Hcnt Hz. destruct Hall as [_ Hp]; [lia|].
  apply Permutation_length in Hp. rewrite length_fmap in Hp.
  pose proof (ok_failed_calls (calls s)) as Hsum.
  assert (ok_calls (calls s) = List.length data) as Hok by lia.
  split; [by rewrite Hsh, Hok|].
  by rewrite (inv_counts _ _ Hinv), Hlen, Hok.
Qed.

(** Why worker [i], now at [w], is over: [q] is the queue of items and [cs]
    the calls of [work]. *)
Definition ended_ok (i : nat) (w : wstate Item) (q : list Item)
    (cs : list (nat * Item)) : Prop :=
  match w with
  | WReport e _ | WRaised e =>
      e <> Empty /\ exists x, (i, x) ∈ cs /\ work i x = Raises e
  | WReturned =>
      no_early_timeout ->
      q = [] \/ exists x, (i, x) ∈ cs /\ work i x = Raises Empty
  | _ => True
  end.

Definition how_inv (s : state) : Prop :=
  forall i w, processes s !! i = Some w -> ended_ok i w (src s) (calls s).

Lemma ended_ok_mono i w q q' cs cs' :
  ended_ok i w q cs -> (q' = q \/ exists x, q = x :: q') -> cs `prefix_of` cs' ->
  ended_ok i w q' cs'.
Proof.
  intros Hok Hq [k ->]. destruct w; simpl in *; try done.
  - intros Hno. destruct (Hok Hno) as [->|(x & Hx & Hw)].
    + left. by destruct Hq as [->|[x ?]].
    + right. exists x. split; [|done]. apply elem_of_app. by left.
  - destruct Hok as (Hne & x & Hx & Hw). split; [done|].
    exists x. split; [|done]. apply elem_of_app. by left.
  - destruct Hok as (Hne & x & Hx & Hw). split; [done|].
    exists x. split; [|done]. apply elem_of_app. by left.
Qed.

Lemma step_how_inv data s s' :
  inv data s -> how_inv s -> step s s' -> how_inv s'.
Proof.
  intros Hinv Hhow [a Hact].
  destruct (act_log _ _ _ Hact) as (Hsrc & Hcalls & _).
  assert (calls s `prefix_of` calls s') as Hpre.
  { destruct Hcalls as [->|(i & x & _ & ->)]; [done|]. by apply prefix_app_r. }
  assert (forall j w, processes s !! j = Some w ->
    ended_ok j w (src s') (calls s')) as Hold.
  { intros j w Hj. eapply ended_ok_mono; eauto. }
  destruct a as [|i now]; simpl in Hact.
  - unfold main_step in Hact. destruct (main s) as [k|k| |]; [| | |done].
    + destruct (processes s !! k) as [w|] eqn:Hk; injection Hact as <-;
        [|exact Hold].
      intros j w' [(-> & <- & _)|[_ Hj]]%list_lookup_insert_Some; [done|].
      by apply Hold in Hj.
    + destruct (processes s !! k) as [w|]; [destruct (exited w)|];
        try done; injection Hact as <-; exact Hold.
    + injection Hact as <-. exact Hold.
  - unfold worker_step in Hact.
    destruct (processes s !! i) as [w|] eqn:Hw; [|done].
    pose proof (gate_locked data s i w Hinv Hw) as Hlk.
    pose proof (Hhow _ _ Hw) as Hwas.
    assert (forall y q cs, s' = State q (shared s') (lock s') (stderr s')
               (meter s') cs (<[i:=y]> (processes s)) (main s')
               (data_length s') (start s') (col s') ->
            ended_ok i y q cs -> how_inv s') as Hnew.
    { intros y q cs Hs' Hy j w' Hj.
      assert (src s' = q /\ calls s' = cs /\ processes s' = <[i:=y]> (processes s))
        as (Hq & Hc & Hp) by (by rewrite Hs').
      rewrite Hp in Hj.
      apply list_lookup_insert_Some in Hj as [(-> & <- & _)|[_ Hj]].
      - by rewrite Hq, Hc.
      - by apply Hold. }
    destruct w as [| |x| | |v|v| | |e todo|e]; simpl in Hact; try done.
    + destruct (src s) as [|x q] eqn:Hq;
        [|destruct (timed_out now) eqn:Hlate]; injection Hact as <-;
        (eapply Hnew; [reflexivity|]); simpl; auto.
      intros Hno. by rewrite Hno in Hlate.
    + destruct (work i x) as [|[]] eqn:Hx; injection Hact as <-;
        (eapply Hnew; [reflexivity|]); simpl; try done.
      * intros _. right. exists x. split; [|done]. apply elem_of_app. right.
        by apply list_elem_of_singleton.
      * split; [done|]. exists x. split; [|done]. apply elem_of_app. right.
        by apply list_elem_of_singleton.
      * split; [done|]. exists x. split; [|done]. apply elem_of_app. right.
        by apply list_elem_of_singleton.
      * split; [done|]. exists x. split; [|done]. apply elem_of_app. right.
        by apply list_elem_of_singleton.
    + destruct (lock s); [done|]. injection Hact as <-.
      by (eapply Hnew; [reflexivity|]).
    + destruct (shared s) as [|c q]; [done|]. injection Hact as <-.
      by (eapply Hnew; [reflexivity|]).
    + injection Hact as <-. by (eapply Hnew; [reflexivity|]).
    + injection Hact as <-. by (eapply Hnew; [reflexivity|]).
    + rewrite (Hlk eq_refl) in Hact. injection Hact as <-.
      by (eapply Hnew; [reflexivity|]).
    + destruct todo as [|t todo]; injection Hact as <-;
        (eapply Hnew; [reflexivity|]); exact Hwas.
Qed.

Lemma reachable_how_inv data process_cnt sh t0 t1 s0 s :
  parallel_setup data process_cnt sh t0 t1 = Ok s0 -> reachable s0 s ->
  inv data s /\ how_inv s.
Proof.
  intros Hset Hr.
  pose proof (setup_inv _ _ _ _ _ _ Hset) as Hinv0.
  assert (how_inv s0) as Hhow0.
  { destruct (setup_fields _ _ _ _ _ _ Hset) as (_ & _ & _ & _ & Hpr & _).
    intros j w Hj. rewrite Hpr in Hj.
    by apply lookup_replicate in Hj as [-> _]. }
  clear Hset. induction Hr as [|s1 s2 s3 Hs _ IH]; [done|].
  apply IH; [by eapply step_inv|by eapply step_how_inv].
Qed.

(** X6: how a worker ends, in every state of every run.  An exception that
    leaves a worker, whether it is still being reported or the process has
    died of it, is never [Empty], and it was raised by a call of [work] made
    by that worker: the queue and lock operations of [_worker] raise nothing
    else, for a worker that reaches [lock.release()] finds the lock held.
    And when no [src.get] gives up while items are queued, a worker that has
    returned either found the queue empty, and the queue is still empty, or
    called [work] on an item and [work] raised [Empty]. *)
Theorem workers_end_by_empty_queue_or_work data process_cnt sh t0 t1 :
  exists s0, parallel_setup data process_cnt sh t0 t1 = Ok s0
    /\ forall s i, reachable s0 s ->
         (forall e,
            processes s !! i = Some (WRaised e)
            \/ (exists todo, processes s !! i = Some (WReport e todo)) ->
            e <> Empty /\ exists x, (i, x) ∈ calls s /\ work i x = Raises e)
         /\ (processes s !! i = Some WRelease -> lock s = true)
         /\ ((forall now, timed_out now = false) ->
             processes s !! i = Some WReturned ->
             src s = [] \/ exists x, (i, x) ∈ calls s /\ work i x = Raises Empty).
Proof.
  destruct (setup_total data process_cnt sh t0 t1) as [s0 Hset].
  exists s0. split; [done|]. intros s i Hr.
  destruct (reachable_how_inv _ _ _ _ _ _ _ Hset Hr) as [Hinv Hhow].
  split; [|split].
  - intros e [Hi|[todo Hi]]; apply (Hhow _ _ Hi).
  - intros Hi. by apply (gate_locked data s i _ Hinv Hi).
  - intros Hno Hi. by apply (Hhow _ _ Hi).
Qed.

Lemma calls_index_bound data process_cnt sh t0 t1 s0 s :
  parallel_setup data process_cnt sh t0 t1 = Ok s0 -> reachable s0 s ->
  Forall (fun c => (c.1 < Z.to_nat process_cnt)%nat) (calls s).
Proof.
  intros Hset Hr.
  destruct (setup_fields _ _ _ _ _ _ Hset) as (_ & _ & _ & Hcl & Hpr & _).
  assert (List.length (processes s) = Z.to_nat process_cnt
          /\ Forall (fun c => (c.1 < Z.to_nat process_cnt)%nat) (calls s))
    as [_ Hall]; [|done].
  revert s Hr. apply reachable_ind_r.
  - rewrite Hcl, Hpr, length_replicate. by split.
  - intros s1 s2 Hr [a Ha] [Hlen Hall].
    destruct (act_frame _ _ _ Ha) as [Hl _]. split; [lia|].
    destruct (act_log _ _ _ Ha) as (_ & [->|(i & x & Hi & ->)] & _); [done|].
    apply Forall_app. split; [done|]. apply Forall_singleton. simpl.
    apply lookup_lt_Some in Hi. lia.
Qed.

Lemma always_ends_also (P Q : state -> Prop) s0 :
  always_ends P s0 -> (forall s, reachable s0 s -> Q s) ->
  always_ends (fun s => P s /\ Q s) s0.
Proof.
  intros (Ha & Hp & HP) HQ. split; [done|]. split; [done|]. auto.
Qed.

(** Who takes an item and who calls [work]: a worker comes to hold an item
    [x] only by its own [src.get], which takes [x] from the front of the
    queue, and a call of [work] is logged only by the step of the worker that
    holds the item. *)
Lemma act_work a s s' :
  act a s = Some s' ->
  (forall i x, processes s' !! i = Some (WWork x) ->
     processes s !! i = Some (WWork x)
     \/ exists now, a = Worker i now /\ processes s !! i = Some WGet
          /\ src s = x :: src s')
  /\ (calls s' = calls s
      \/ exists i now x, a = Worker i now /\ processes s !! i = Some (WWork x)
           /\ calls s' = calls s ++ [(i, x)]).
Proof.
  destruct a as [|i now]; simpl.
  - unfold main_step. destruct (main s) as [k|k| |]; [| | |done].
    + destruct (processes s !! k); intros [= <-]; simpl; [|auto].
      split; [|auto].
      intros j x [(_ & ? & _)|[_ Hj]]%list_lookup_insert_Some; [done|auto].
    + destruct (processes s !! k) as [w|]; [destruct (exited w)|]; try done;
        intros [= <-]; simpl; auto.
    + intros [= <-]; simpl. auto.
  - unfold worker_step. destruct (processes s !! i) as [w|] eqn:Hw; [|done].
    assert (forall y s1, processes s1 = processes s ->
      (forall x, y = WWork x -> w = WGet /\ src s = x :: src s1) ->
      forall j x, processes (set_proc i y s1) !! j = Some (WWork x) ->
        processes s !! j = Some (WWork x)
        \/ exists now0, Worker i now = Worker j now0
             /\ processes s !! j = Some WGet
             /\ src s = x :: src (set_proc i y s1)) as Hset.
    { intros y s1 Hp Hy j x. simpl. rewrite Hp.
      intros [(-> & -> & _)|[_ Hj]]%list_lookup_insert_Some; [|auto].
      destruct (Hy x eq_refl) as [-> Hq]. right. exists now. by rewrite Hw. }
    destruct w as [| |x| | |v|v| | |e todo|e]; simpl; try done.
    + destruct (src s) as [|x q] eqn:Hsrc; simpl; [|destruct (timed_out now)];
        intros [= <-]; (split; [apply Hset; [done|]|by left]); try done.
      intros x' [= <-]. simpl. by rewrite ?Hsrc.
    + destruct (work i x) as [|[]]; intros [= <-];
        (split; [by apply Hset|]); right; exists i, now, x; by simpl.
    + destruct (lock s); intros [= <-]; (split; [by apply Hset|by left]).
    + destruct (shared s); simpl; intros [= <-];
        (split; [by apply Hset|by left]).
    + intros [= <-]; (split; [by apply Hset|by left]).
    + intros [= <-]; (split; [by apply Hset|by left]).
    + destruct (lock s); intros [= <-]; (split; [by apply Hset|by left]).
    + destruct todo as [|t todo]; intros [= <-];
        (split; [by apply Hset|by left]).
Qed.

(** X7: the index passed to [work] is always one of [0 .. process_cnt - 1],
    and it is the index of the worker that took the item.  At every moment of
    every run each call of [work] carries an index below [process_cnt]; a
    step of the run adds a call [(i, x)] only if it is the step of worker
    [i], with [0 <= i < process_cnt], holding the item [x]; and worker [i]
    comes to hold [x] only by its own [src.get], which takes [x] from the
    front of the queue. *)
Theorem worker_index_in_range data process_cnt sh t0 t1 :
  exists s0, parallel_setup data process_cnt sh t0 t1 = Ok s0
    /\ forall s, reachable s0 s ->
         Forall (fun c => 0 <= Z.of_nat c.1 < process_cnt) (calls s)
         /\ forall a s', act a s = Some s' ->
              (calls s' = calls s
               \/ exists i now x, a = Worker i now
                    /\ 0 <= Z.of_nat i < process_cnt
                    /\ processes s !! i = Some (WWork x)
                    /\ calls s' = calls s ++ [(i, x)])
              /\ (forall i x, processes s' !! i = Some (WWork x) ->
                    processes s !! i = Some (WWork x)
                    \/ exists now, a = Worker i now
                         /\ processes s !! i = Some WGet
                         /\ src s = x :: src s').
Proof.
  destruct (setup_total data process_cnt sh t0 t1) as [s0 Hset].
  exists s0. split; [done|]. intros s Hr. split.
  - eapply Forall_impl; [by eapply calls_index_bound|].
    intros c Hc. simpl in Hc. lia.
  - intros a s' Ha. destruct (act_work _ _ _ Ha) as [Hw Hc]. split; [|done].
    destruct Hc as [->|(i & now & x & -> & Hi & ->)]; [by left|].
    right. exists i, now, x. split; [done|]. split; [|done].
    destruct (setup_fields _ _ _ _ _ _ Hset) as (_ & _ & _ & _ & Hpr & _).
    destruct (reachable_frame _ _ Hr) as (Hlen & _).
    apply lookup_lt_Some in Hi.
    rewrite Hlen, Hpr, length_replicate in Hi. lia.
Qed.







(** X11: the counts rendered are consecutive, whatever the schedule, whatever
    [work] does and whenever a [src.get] gives up: at every moment of every
    run the counts passed to [format_meter] are exactly 0, 1, ..., [k] in
    that order, the first render being the one of [parallel] itself; and when
    [parallel] returns, [k] is the number of calls of [work] that returned,
    which is also the value left in the counter. *)
Theorem render_counts_consecutive data process_cnt sh t0 t1 :
  exists s0, parallel_setup data process_cnt sh t0 t1 = Ok s0
    /\ (forall s, reachable s0 s ->
          exists k, meter_count <$> meter s = Z.of_nat <$> seq 0 (S k))
    /\ always_ends (fun s =>
         meter_count <$> meter s = Z.of_nat <$> seq 0 (S (ok_calls (calls s)))
         /\ shared s = [Z.of_nat (ok_calls (calls s))]) s0.
Proof.
  destruct (setup_total data process_cnt sh t0 t1) as [s0 Hset].
  pose proof (setup_inv _ _ _ _ _ _ Hset) as Hinv0.
  exists s0. split; [done|]. split.
  - intros s Hr. pose proof (reachable_inv _ _ _ Hinv0 Hr) as Hinv.
    pose proof (inv_first _ _ Hinv) as Hpos.
    exists (Nat.pred (List.length (meter s))).
    rewrite (inv_counts _ _ Hinv). unfold counts.
    by replace (S (Nat.pred (List.length (meter s))))
      with (List.length (meter s)) by lia.
  - apply (always_ends_intro data (inv data)); [done|apply step_inv|done|].
    intros s Hinv Hf.
    destruct (finished_facts _ _ Hinv Hf) as (_ & Hsh & Hlen & _).
    split; [|done]. by rewrite (inv_counts _ _ Hinv), Hlen.
Qed.

End MultiTqdm.

Arguments Main {Time}.
Arguments Worker {Time} index now.

(** ** Concrete runs *)

(** A formatter for the examples: it shows nothing but a mark. *)
Definition mark_meter (n total elapsed ncols : Z) : string := "#"%string.

Definition always_returns (index : nat) (x : nat) : outcome := Returns.

(** [work] that raises [e] on the item 1 and returns on every other item. *)
Definition raises_on_1 (e : exn) (index : nat) (x : nat) : outcome :=
  if Nat.eqb x 1 then Raises e else Returns.

Definition wide_screen : screen := Some (Some 80, Some 24).

(** Every [src.get] that finds an item queued receives it in time. *)
Definition never_late (now : Z) : bool := false.

(** The [src.get] called at the clock reading [t] waits its 0.2 s in vain:
    the feeder thread of the queue has not written the next item to the pipe
    yet. *)
Definition late_at (t now : Z) : bool := Z.eqb now t.

(** What the bootstrap of the process of worker [index] writes when an
    exception leaves [_worker]: the line ['Process Process-<index + 1>:'],
    then the traceback. *)
Definition process_report (index : nat) (e : exn) : list string :=
  [ "Process Process-" +:+ pretty (S index) +:+ ":" +:+ NL;
    "Traceback (most recent call last):" +:+ NL ].

(** What is left of a state when the run is over. *)
Definition summary {Item Time} (s : state Item Time)
    : list (wstate Item) * list (nat * Item) * list Item * list Z * bool * mstate :=
  (processes _ _ s, calls _ _ s, src _ _ s, shared _ _ s, lock _ _ s, main _ _ s).

(** One worker, items 1 and 2: start, get 1, call [work], leave the start
    loop, join, leave the join loop, write the newline. *)
Definition one_call_then_join : list (@actor Z) :=
  [Main; Worker 0 2; Worker 0 3; Main; Main; Main; Main].

(** C4: [work] raises [queue.Empty] on the first item.  The worker returns as
    if the queue were empty, no exception leaves [_worker], [parallel] returns
    normally, and the item 2 is still in the queue. *)
Theorem work_raising_Empty_is_swallowed :
  summary <$> parallel_run nat Z Z.sub (raises_on_1 Empty) mark_meter
                never_late process_report
                [1; 2]%nat 1 wide_screen 0 1 one_call_then_join
  = Some ([WReturned], [(0, 1)]%nat, [2]%nat, [0], false, MDone).
Proof. vm_compute. reflexivity. Qed.

(** The same run with any other exception: it leaves [_worker], and the
    bootstrap of the process reports it on [stderr] before the process
    dies. *)
Example work_raising_other_propagates :
  (fun s => (summary s, stderr _ _ s))
    <$> parallel_run nat Z Z.sub (raises_on_1 (OtherError 0)) mark_meter
          never_late process_report
          [1; 2]%nat 1 wide_screen 0 1
          [Main; Worker 0 2; Worker 0 3; Worker 0 4; Worker 0 4; Worker 0 4;
           Main; Main; Main; Main]
  = Some (([WRaised (OtherError 0)], [(0, 1)]%nat, [2]%nat, [0], false, MDone),
          [String.append "#" CR;
           "Process Process-1:" +:+ NL;
           "Traceback (most recent call last):" +:+ NL;
           NL]).
Proof. vm_compute. reflexivity. Qed.

(** *** A [src.get] that gives up while items are queued *)

(** One worker and the items 5, 6, 7; every call of [work] returns.  The
    worker is started, takes 5, calls [work], renders the count 1, and asks
    for the next item at the clock reading 5.  The main process then leaves
    its start loop, joins the worker and writes the newline. *)
Definition one_item_then_join : list (@actor Z) :=
  [Main; Worker 0 2; Worker 0 3;
   Worker 0 4; Worker 0 4; Worker 0 4; Worker 0 4; Worker 0 4;
   Worker 0 5; Main; Main; Main; Main].

(** The run in which the [src.get] at the clock reading 5 gives up. *)
Definition timed_out_run : option (state nat Z) :=
  parallel_run nat Z Z.sub always_returns mark_meter (late_at 5) process_report
    [5; 6; 7]%nat 1 wide_screen 0 1 one_item_then_join.

(** C1: three items, one worker, no call of [work] fails, and the second
    [src.get] gives up before the item 6 has reached the pipe: [except Empty]
    takes this for the end of the data, the worker returns, and [parallel]
    returns with the counter at 1, not at 3. *)
Theorem timed_out_get_counter_short :
  (fun s => (main _ _ s, processes _ _ s, shared _ _ s)) <$> timed_out_run
  = Some (MDone, [WReturned], [1]).
Proof. vm_compute. reflexivity. Qed.

(** C2: in the same run the items 6 and 7 are never passed to [work]: when
    [parallel] has returned, [work] was called on 5 only and 6 and 7 are
    still in the queue, although no call failed. *)
Theorem timed_out_get_items_unprocessed :
  (fun s => (main _ _ s, snd <$> calls _ _ s, src _ _ s,
             failed_calls nat always_returns (calls _ _ s)))
    <$> timed_out_run
  = Some (MDone, [5]%nat, [6; 7]%nat, 0%nat).
Proof. vm_compute. reflexivity. Qed.

(** C6: in the same run the counts passed to [format_meter] are 0 and 1:
    they do not end at 3, and there is one render for the three items. *)
Theorem timed_out_get_renders_short :
  (fun s => (main _ _ s, meter_count Z <$> meter _ _ s,
             List.length (src _ _ s ++ (snd <$> calls _ _ s))))
    <$> timed_out_run
  = Some (MDone, [0; 1], 3%nat).
Proof. vm_compute. reflexivity. Qed.

(** C9: with [process_cnt = 1] the same run ends after the call on 5, while
    the sequential loop [for item in data: work(0, item)] calls [work] on 5,
    6 and 7. *)
Theorem timed_out_get_not_sequential :
  (fun s => (main _ _ s, calls _ _ s)) <$> timed_out_run
  = Some (MDone, [(0, 5)]%nat)
  /\ (sequential_loop nat always_returns [5; 6; 7]%nat 0).1
     = [(0, 5); (0, 6); (0, 7)]%nat.
Proof. split; vm_compute; reflexivity. Qed.

(** *** Witnesses: the theorems at concrete inputs *)

(** One item, one worker: the state after the set-up, ... *)
Definition one_item_setup : state nat Z :=
  State nat Z [7%nat] [0] false [render Z mark_meter (0, 1, 1, 40)]
        [(0, 1, 1, 40)] [] [WNotStarted] (MStart 0) 1 0 40.

(** ... and the state in which the worker holds the lock. *)
Definition one_item_inside : state nat Z :=
  State nat Z [] [0] true [render Z mark_meter (0, 1, 1, 40)]
        [(0, 1, 1, 40)] [(0%nat, 7%nat)] [WSharedGet] (MStart 1) 1 0 40.

Lemma one_item_setup_eq :
  parallel_setup nat Z Z.sub mark_meter [7%nat] 1 wide_screen 0 1
  = Ok one_item_setup.
Proof. reflexivity. Defined.

Lemma one_item_inside_reachable :
  reachable nat Z Z.sub always_returns mark_meter never_late process_report
    one_item_setup one_item_inside.
Proof.
  apply (exec_reachable nat Z Z.sub always_returns mark_meter
           never_late process_report
           [Main; Worker 0 2; Worker 0 3; Worker 0 4]).
  reflexivity.
Defined.








(** The worker inside the gate: the lock is held and the queue still holds
    the count, which the four statements replace by its successor. *)
Lemma counter_cell_holds_one_value_witness :
  exists c s1 s2 s3 s4,
    shared _ _ one_item_inside = [c]
    /\ worker_step nat Z Z.sub always_returns mark_meter
         never_late process_report 0 9 one_item_inside
       = Some s1 /\ shared _ _ s1 = [] /\ lock _ _ s1 = true
    /\ worker_step nat Z Z.sub always_returns mark_meter
         never_late process_report 0 9 s1
       = Some s2 /\ shared _ _ s2 = [] /\ lock _ _ s2 = true
    /\ worker_step nat Z Z.sub always_returns mark_meter
         never_late process_report 0 9 s2
       = Some s3 /\ shared _ _ s3 = [c + 1] /\ lock _ _ s3 = true
    /\ worker_step nat Z Z.sub always_returns mark_meter
         never_late process_report 0 9 s3
       = Some s4 /\ shared _ _ s4 = [c + 1] /\ lock _ _ s4 = false.
Proof.
  destruct (counter_cell_holds_one_value nat Z Z.sub always_returns mark_meter
              never_late process_report
              [7%nat] 1 wide_screen 0 1 one_item_setup one_item_inside
              one_item_setup_eq one_item_inside_reachable)
    as (_ & _ & _ & Hrun).
  exact (Hrun 0%nat 9 eq_refl).
Defined.

Lemma width_fallback_witness :
  screen_cols None = Raise TypeError
  /\ exists s0,
       parallel_setup nat Z Z.sub mark_meter [5; 6]%nat 2 None 0 1 = Ok s0
       /\ col _ _ s0 = 10
       /\ meter _ _ s0 = [(0, 2, 1, 10)]
       /\ always_ends nat Z Z.sub always_returns mark_meter
            never_late process_report
            (fun s => col _ _ s = 10) s0.
Proof.
  apply (width_fallback nat Z Z.sub always_returns mark_meter
           never_late process_report
           [5; 6]%nat 2 None 0 1).
  left. reflexivity.
Defined.

Lemma no_worker_no_work_witness :
  exists s0,
    parallel_setup nat Z Z.sub mark_meter [7]%nat 0 wide_screen 0 1 = Ok s0
    /\ processes _ _ s0 = []
    /\ always_ends nat Z Z.sub always_returns mark_meter
         never_late process_report
         (fun s => calls _ _ s = [] /\ src _ _ s = [7]%nat /\ shared _ _ s = [0]
            /\ stderr _ _ s = [render Z mark_meter (0, 1, 1, col _ _ s0); NL]) s0.
Proof.
  apply (no_worker_no_work nat Z Z.sub always_returns mark_meter
           never_late process_report
           [7]%nat 0 wide_screen 0 1).
  lia.
Defined.

(** When every [src.get] receives a queued item in time, three items and two
    workers with no failing call end with the queue empty, each item passed
    to [work] once, the counter at 3 and the counts 0, 1, 2, 3 rendered. *)
Lemma fewer_failures_than_workers_witness :
  exists s0,
    parallel_setup nat Z Z.sub mark_meter [5; 6; 7]%nat 2 wide_screen 0 1 = Ok s0
    /\ always_ends nat Z Z.sub always_returns mark_meter
         never_late process_report
         (fun s =>
            (src _ _ s = []
             \/ failed_calls nat always_returns (calls _ _ s) = Z.to_nat 2)
            /\ ((failed_calls nat always_returns (calls _ _ s) < Z.to_nat 2)%nat ->
                  src _ _ s = [] /\ (snd <$> calls _ _ s) ≡ₚ [5; 6; 7]%nat)
            /\ (1 <= 2 -> failed_calls nat always_returns (calls _ _ s) = 0%nat ->
                  shared _ _ s = [Z.of_nat (List.length [5; 6; 7]%nat)]
                  /\ meter_count Z <$> meter _ _ s
                     = 0 :: ((fun j => Z.of_nat j)
                               <$> seq 1 (List.length [5; 6; 7]%nat)))) s0.
Proof.
  apply (fewer_failures_than_workers nat Z Z.sub always_returns mark_meter
           never_late process_report [5; 6; 7]%nat 2 wide_screen 0 1).
  intros now. reflexivity.
Defined.

(** *** Counterexamples *)

(** C7 as stated fails: with [process_cnt = 0] nothing is raised;
    [parallel] returns normally and the item 7 was never passed to [work]. *)
Lemma process_cnt_not_validated :
  summary <$> parallel_run nat Z Z.sub always_returns mark_meter
                never_late process_report
                [7]%nat 0 wide_screen 0 1 [Main; Main; Main]
  = Some ([], [], [7]%nat, [0], false, MDone).
Proof. vm_compute. reflexivity. Qed.

(** C3 as stated fails: with no item and [process_cnt = 2] both workers are
    started; after the two [start()] both are at their first [src.get]. *)
Lemma empty_data_spawns_workers :
  summary <$> parallel_run nat Z Z.sub always_returns mark_meter
                never_late process_report
                [] 2 wide_screen 0 1 [Main; Main]
  = Some ([WGet; WGet], [], [], [0], false, MStart 2).
Proof. vm_compute. reflexivity. Qed.

(** ** [my_worker]: one file per worker *)

(** The files, by name; [None]: the file does not exist. *)
Abbreviation files := (gmap string string).

(** ['%s.txt' % index] *)
Definition file_name (index : nat) : string := pretty index +:+ ".txt".

(** ['%s\n' % x] *)
Definition file_line (x : Z) : string := pretty x +:+ NL.

(** What a file holds; a file that does not exist holds nothing. *)
Definition content (fs : files) (name : string) : string :=
  default ""%string (fs !! name).

(** [with open('%s.txt' % index, 'a') as f: f.write('%s\n' % x)]: append mode
    creates the file if it does not exist and writes at its end. *)
Definition my_worker (index : nat) (x : Z) (fs : files) : files :=
  <[file_name index := content fs (file_name index) +:+ file_line x]> fs.

(** [my_worker] as a [work] of [parallel]: opening and writing succeed. *)
Definition my_worker_outcome (index : nat) (x : Z) : outcome := Returns.

(** The files after the calls [cs], made in this order. *)
Definition files_after (fs : files) (cs : list (nat * Z)) : files :=
  foldl (fun fs c => my_worker c.1 c.2 fs) fs cs.

(** The lines [my_worker] writes for the items [xs]. *)
Definition file_lines (xs : list Z) : string :=
  foldr (fun x rest => file_line x +:+ rest) ""%string xs.

(** The items worker [index] was called on, in the order of its calls. *)
Definition worked_by (index : nat) (cs : list (nat * Z)) : list Z :=
  snd <$> filter (fun c => c.1 = index) cs.

(** [list(range(n))] *)
Definition range (n : nat) : list Z := Z.of_nat <$> seq 0 n.

Lemma append_cons (a : ascii) (s t : string) :
  String a s +:+ t = String a (s +:+ t).
Proof. reflexivity. Qed.

Lemma append_nil_l (t : string) : "" +:+ t = t.
Proof. reflexivity. Qed.

Lemma append_assoc (s1 s2 s3 : string) : (s1 +:+ s2) +:+ s3 = s1 +:+ (s2 +:+ s3).
Proof.
  induction s1 as [|a s1 IH]; [done|]. by rewrite !append_cons, IH.
Qed.

Lemma append_nil_r (s : string) : s +:+ "" = s.
Proof. induction s as [|a s IH]; [done|]. by rewrite append_cons, IH. Qed.

Lemma append_length (s1 s2 : string) :
  String.length (s1 +:+ s2) = (String.length s1 + String.length s2)%nat.
Proof.
  induction s1 as [|a s1 IH]; [done|]. rewrite append_cons. simpl. by rewrite IH.
Qed.

Lemma append_inj_r (s1 s2 t : string) : s1 +:+ t = s2 +:+ t -> s1 = s2.
Proof.
  revert s2. induction s1 as [|a s1 IH]; intros [|b s2] H;
    rewrite ?append_cons, ?append_nil_l in H.
  - done.
  - apply (f_equal String.length) in H.
    simpl in H. rewrite append_length in H. lia.
  - apply (f_equal String.length) in H.
    simpl in H. rewrite append_length in H. lia.
  - injection H as -> H. f_equal. by apply IH.
Qed.

(** Two workers never share a file. *)
Lemma file_name_inj i j : file_name i = file_name j -> i = j.
Proof.
  unfold file_name. intros H. apply append_inj_r in H.
  by apply (inj pretty) in H.
Qed.

(** *** One call *)

Lemma my_worker_lookup index x fs name :
  my_worker index x fs !! name
  = if decide (file_name index = name)
    then Some (content fs name +:+ file_line x)
    else fs !! name.
Proof.
  unfold my_worker. destruct (decide (file_name index = name)) as [<-|Hne].
  - by rewrite lookup_insert_eq.
  - by rewrite lookup_insert_ne.
Qed.

(** X9: a call of [my_worker] appends one line, the item followed by a
    newline, to the file of its worker, creating it if it does not exist, and
    leaves every other file as it is; different workers have different
    files; so calls by different workers commute, and what the files hold
    does not depend on how the workers interleave. *)
Theorem my_worker_commutes i j x y fs :
  i <> j ->
  my_worker i x fs !! file_name i
    = Some (content fs (file_name i) +:+ pretty x +:+ NL)
  /\ (forall name, name <> file_name i -> my_worker i x fs !! name = fs !! name)
  /\ file_name i <> file_name j
  /\ my_worker i x (my_worker j y fs) = my_worker j y (my_worker i x fs).
Proof.
  intros Hne. split; [|split; [|split]].
  - rewrite my_worker_lookup, decide_True by done. done.
  - intros name Hname. rewrite my_worker_lookup, decide_False; done.
  - intros H. by apply file_name_inj in H.
  - apply map_eq. intros name. rewrite !my_worker_lookup.
    unfold content. rewrite !my_worker_lookup.
    destruct (decide (file_name i = name)) as [Hi|Hi];
      destruct (decide (file_name j = name)) as [Hj|Hj]; try done.
    destruct Hne. apply file_name_inj. congruence.
Qed.

(** *** All the calls of a run *)

Lemma worked_by_cons i c cs :
  worked_by i (c :: cs)
  = if decide (c.1 = i) then c.2 :: worked_by i cs else worked_by i cs.
Proof. unfold worked_by. rewrite filter_cons. by destruct (decide (c.1 = i)). Qed.

Lemma files_after_content fs cs i :
  content (files_after fs cs) (file_name i)
  = content fs (file_name i) +:+ file_lines (worked_by i cs).
Proof.
  revert fs. induction cs as [|c cs IH]; intros fs; simpl.
  - by rewrite append_nil_r.
  - rewrite IH, worked_by_cons. unfold content. rewrite my_worker_lookup.
    unfold content.
    destruct (decide (c.1 = i)) as [->|Hne].
    + rewrite decide_True by done. simpl. by rewrite append_assoc.
    + rewrite decide_False; [done|]. intros H. by apply file_name_inj in H.
Qed.

Lemma files_after_other fs cs name :
  Forall (fun c => file_name c.1 <> name) cs ->
  files_after fs cs !! name = fs !! name.
Proof.
  revert fs. induction cs as [|c cs IH]; intros fs Hall; simpl; [done|].
  apply Forall_cons in Hall as [Hc Hall].
  rewrite IH, my_worker_lookup by done. by rewrite decide_False.
Qed.

Lemma filter_index_split (cs : list (nat * Z)) n :
  filter (fun c => (c.1 < S n)%nat) cs
  ≡ₚ filter (fun c => (c.1 < n)%nat) cs ++ filter (fun c => c.1 = n) cs.
Proof.
  induction cs as [|c cs IH]; [done|]. rewrite !filter_cons.
  destruct (decide (c.1 < S n)%nat), (decide (c.1 < n)%nat), (decide (c.1 = n));
    try lia; simpl; rewrite ?IH; try done.
  by rewrite <- Permutation_middle.
Qed.

(** Sorting the calls by worker loses none and repeats none. *)
Lemma calls_by_worker (cs : list (nat * Z)) n :
  Forall (fun c => (c.1 < n)%nat) cs ->
  seq 0 n ≫= (fun i => filter (fun c => c.1 = i) cs) ≡ₚ cs.
Proof.
  intros Hall.
  assert (forall m, seq 0 m ≫= (fun i => filter (fun c => c.1 = i) cs)
                    ≡ₚ filter (fun c => (c.1 < m)%nat) cs) as Hm.
  { intros m. induction m as [|m IH].
    - clear Hall. induction cs as [|c cs IH]; [done|].
      rewrite filter_cons. destruct (decide (c.1 < 0)%nat); [lia|done].
    - rewrite seq_S, bind_app, bind_singleton, IH. simpl.
      by rewrite filter_index_split. }
  rewrite Hm. clear Hm. induction Hall as [|c cs Hc Hall IH]; [done|].
  rewrite filter_cons. destruct (decide (c.1 < n)%nat); [|done]. by rewrite IH.
Qed.

Lemma fmap_bind_list {A B C} (f : B -> C) (g : A -> list B) (l : list A) :
  f <$> (l ≫= g) = l ≫= (fun x => f <$> g x).
Proof.
  induction l as [|a l IH]; [done|]. by rewrite !bind_cons, fmap_app, IH.
Qed.

Lemma my_worker_never_fails (cs : list (nat * Z)) :
  failed_calls Z my_worker_outcome cs = 0%nat.
Proof. induction cs as [|c cs IH]; [done|]. exact IH. Qed.

(** X10: [parallel(my_worker, data, process_cnt)] on any files, whenever a
    [src.get] gives up: every run ends, and then the file of each worker
    holds what it held before followed by one line for each item that worker
    processed, in the order it processed them; the items written to the files
    [0.txt .. (process_cnt-1).txt], taken together with the items left in the
    queue, are the items of [data], none missing and none twice; no other
    file is touched; and if there is a worker and no [src.get] gives up while
    items are queued, no item is left in the queue. *)
Theorem my_worker_files (Time : Type) (tsub : Time -> Time -> Time)
    (format_meter : Z -> Z -> Time -> Z -> string)
    (timed_out : Time -> bool) (bootstrap_report : nat -> exn -> list string)
    (data : list Z) process_cnt sh t0 t1 (fs : files) :
  exists s0,
    parallel_setup Z Time tsub format_meter data process_cnt sh t0 t1 = Ok s0
    /\ always_ends Z Time tsub my_worker_outcome format_meter
         timed_out bootstrap_report (fun s =>
         let cs := calls Z Time s in
         (forall i, content (files_after fs cs) (file_name i)
                    = content fs (file_name i) +:+ file_lines (worked_by i cs))
         /\ (seq 0 (Z.to_nat process_cnt) ≫= (fun i => worked_by i cs))
              ++ src Z Time s ≡ₚ data
         /\ (forall name,
               (forall i, (i < Z.to_nat process_cnt)%nat -> name <> file_name i) ->
               files_after fs cs !! name = fs !! name)
         /\ (1 <= process_cnt -> (forall now, timed_out now = false) ->
             src Z Time s = [])) s0.
Proof.
  destruct (setup_total Z Time tsub format_meter data process_cnt sh t0 t1)
    as [s0 Hset].
  exists s0. split; [done|].
  pose proof (setup_inv Z Time tsub my_worker_outcome format_meter
                _ _ _ _ _ _ Hset) as Hinv0.
  assert (always_ends Z Time tsub my_worker_outcome format_meter
            timed_out bootstrap_report
            (fun s => data ≡ₚ (snd <$> calls Z Time s) ++ src Z Time s) s0)
    as Hends.
  { apply (always_ends_intro Z Time tsub my_worker_outcome format_meter
             timed_out bootstrap_report data
             (inv Z Time my_worker_outcome format_meter data));
      [done|apply step_inv|done|].
    intros s Hinv Hf.
    by destruct (finished_facts _ _ _ _ _ _ Hinv Hf) as (_ & _ & _ & ?). }
  destruct Hends as (Hacc & Hprog & Hlast).
  split; [done|]. split; [done|]. intros s Hr Hf. simpl.
  pose proof (calls_index_bound _ _ _ my_worker_outcome _ timed_out
                bootstrap_report _ _ _ _ _ _ s Hset Hr) as Hidx.
  split; [|split; [|split]].
  - intros i. apply files_after_content.
  - unfold worked_by. rewrite <- fmap_bind_list, calls_by_worker by done.
    symmetry. by apply Hlast.
  - intros name Hname. apply files_after_other.
    eapply Forall_impl; [exact Hidx|]. intros c Hc Heq. simpl in Hc.
    by apply (Hname c.1).
  - intros Hcnt Hno.
    assert (always_ends Z Time tsub my_worker_outcome format_meter
              timed_out bootstrap_report
              (fun s => src Z Time s = []) s0) as (_ & _ & Hdrained).
    { eapply drained_run; [exact Hno|exact Hset|].
      intros s1 _ _ [Hsrc|Hfail]; [done|].
      rewrite my_worker_never_fails in Hfail. lia. }
    by apply Hdrained.
Qed.

(** *** The program's own run: [parallel(my_worker, list(range(30)), 4)] *)

Lemma my_worker_commutes_witness :
  my_worker 0 5 ∅ !! file_name 0
    = Some (content ∅ (file_name 0) +:+ pretty 5 +:+ NL)
  /\ (forall name, name <> file_name 0 ->
        my_worker 0 5 ∅ !! name = (∅ : files) !! name)
  /\ file_name 0 <> file_name 1
  /\ my_worker 0 5 (my_worker 1 6 ∅) = my_worker 1 6 (my_worker 0 5 ∅).
Proof. apply (my_worker_commutes 0 1 5 6 ∅). lia. Defined.

Lemma my_worker_files_witness :
  exists s0,
    parallel_setup Z Z Z.sub mark_meter (range 30) 4 wide_screen 0 1 = Ok s0
    /\ always_ends Z Z Z.sub my_worker_outcome mark_meter
         (late_at 40) process_report (fun s =>
         let cs := calls Z Z s in
         (forall i, content (files_after ∅ cs) (file_name i)
                    = content ∅ (file_name i) +:+ file_lines (worked_by i cs))
         /\ (seq 0 (Z.to_nat 4) ≫= (fun i => worked_by i cs))
              ++ src Z Z s ≡ₚ range 30
         /\ (forall name,
               (forall i, (i < Z.to_nat 4)%nat -> name <> file_name i) ->
               files_after ∅ cs !! name = (∅ : files) !! name)
         /\ (1 <= 4 -> (forall now, late_at 40 now = false) -> src Z Z s = [])) s0.
Proof.
  apply (my_worker_files Z Z.sub mark_meter (late_at 40) process_report
           (range 30) 4 wide_screen 0 1 ∅).
Defined.

(** Two workers and the items 0, 1, 2: worker 0 takes 0, worker 1 takes 1,
    worker 0 renders and takes 2. *)
Example two_workers_three_items :
  (fun s => let fs := files_after ∅ (calls Z Z s) in
            (fs !! "0.txt"%string, fs !! "1.txt"%string, fs !! "2.txt"%string))
    <$> parallel_run Z Z Z.sub my_worker_outcome mark_meter
          never_late process_report
          (range 3) 2 wide_screen 0 1
          [Main; Main; Worker 0 2; Worker 1 2; Worker 0 3; Worker 1 3;
           Worker 0 4; Worker 0 4; Worker 0 4; Worker 0 4; Worker 0 4;
           Worker 0 5; Worker 0 6]
  = Some (Some ("0" +:+ NL +:+ "2" +:+ NL), Some ("1" +:+ NL), None).
Proof. vm_compute. reflexivity. Qed.
